(** * Single_Mubit_Game: a one-qubit state engine and its sonifier

    Shallow embedding of [src/Single_Mubit_Game.py] over the real numbers.
    Floating-point numbers are read as exact reals; complex numbers are pairs
    of reals.  The circuit object of the source is the list of the gates
    appended to it so far, and the state vector is recomputed from [(1, 0)]
    every time it is read, as the source does with [execute(circ, backend)]. *)

From Stdlib Require Import Reals Lra Lia ZArith String List Bool Psatz RNsatz.
Import ListNotations.

Local Open Scope R_scope.

(** ** Complex amplitudes *)

Module Complex.

Definition C : Type := (R * R)%type.

Definition Re (z : C) : R := fst z.
Definition Im (z : C) : R := snd z.

Definition C0 : C := (0, 0).
Definition C1 : C := (1, 0).
Definition Ci : C := (0, 1).
Definition RtoC (x : R) : C := (x, 0).

Definition Cadd (z w : C) : C := (Re z + Re w, Im z + Im w).
Definition Cmul (z w : C) : C :=
  (Re z * Re w - Im z * Im w, Re z * Im w + Im z * Re w).
Definition Copp (z : C) : C := (- Re z, - Im z).

(** Squared modulus and modulus. *)
Definition Cnorm2 (z : C) : R := Re z * Re z + Im z * Im z.
Definition Cabs (z : C) : R := sqrt (Cnorm2 z).

(** [exp (i t)]. *)
Definition Cexpi (t : R) : C := (cos t, sin t).

End Complex.
Import Complex.

(** Source line 16: [pi = np.pi]. *)
Definition pi : R := PI.

(** ** The gate catalogue *)

Module Gates.

Record Matrix2 : Type := mkM {
  m00 : C; m01 : C;
  m10 : C; m11 : C
}.

(** A state vector is the pair of amplitudes [(a0, a1)]. *)
Definition State : Type := (C * C)%type.

(** Matrix-vector product [U . s]. *)
Definition Mapply (U : Matrix2) (s : State) : State :=
  (Cadd (Cmul (m00 U) (fst s)) (Cmul (m01 U) (snd s)),
   Cadd (Cmul (m10 U) (fst s)) (Cmul (m11 U) (snd s))).

(** The matrices below belong to the quantum library the source imports
    ([circ.h], [circ.x], [circ.y], [circ.z], [circ.rx], [circ.ry],
    [circ.rz]), not to the repository. *)

(** Modelled from the spec: the matrix of [circ.h], section 4.1,
    [1/sqrt 2 [[1,1],[1,-1]]]. *)
Definition H_matrix : Matrix2 :=
  mkM (RtoC (/ sqrt 2)) (RtoC (/ sqrt 2))
      (RtoC (/ sqrt 2)) (RtoC (- / sqrt 2)).

(** Modelled from the spec: the matrix of [circ.x], section 4.1, the
    standard Pauli matrix [[[0,1],[1,0]]]. *)
Definition X_matrix : Matrix2 := mkM C0 C1 C1 C0.

(** Modelled from the spec: the matrix of [circ.y], section 4.1, the
    standard Pauli matrix [[[0,-i],[i,0]]]. *)
Definition Y_matrix : Matrix2 := mkM C0 (Copp Ci) Ci C0.

(** Modelled from the spec: the matrix of [circ.z], section 4.1, the
    standard Pauli matrix [[[1,0],[0,-1]]]. *)
Definition Z_matrix : Matrix2 := mkM C1 C0 C0 (Copp C1).

(** Modelled from the spec: the matrix of [circ.rx], section 4.1, the
    standard rotation about X,
    [[[cos (t/2), -i sin (t/2)], [-i sin (t/2), cos (t/2)]]]. *)
Definition RX_matrix (theta : R) : Matrix2 :=
  mkM (RtoC (cos (theta / 2))) (0, - sin (theta / 2))
      (0, - sin (theta / 2)) (RtoC (cos (theta / 2))).

(** Modelled from the spec: the matrix of [circ.ry], section 4.1, the
    standard rotation about Y,
    [[[cos (t/2), - sin (t/2)], [sin (t/2), cos (t/2)]]]. *)
Definition RY_matrix (theta : R) : Matrix2 :=
  mkM (RtoC (cos (theta / 2))) (RtoC (- sin (theta / 2)))
      (RtoC (sin (theta / 2))) (RtoC (cos (theta / 2))).

(** Modelled from the spec: the matrix of [circ.rz], section 4.1, the
    standard rotation about Z, [[[exp (-i t/2), 0], [0, exp (i t/2)]]]. *)
Definition RZ_matrix (theta : R) : Matrix2 :=
  mkM (Cexpi (- (theta / 2))) C0
      C0 (Cexpi (theta / 2)).

End Gates.
Import Gates.

(** ** StateEngine: the circuit and its state vector *)

Module StateEngine.

(** One instruction of the circuit: [circ.h] appends [HGate], [circ.rx]
    appends [RXGate] with its angle, and so on. *)
Inductive instr : Type :=
| HGate
| XGate
| YGate
| ZGate
| RXGate (theta : R)
| RYGate (theta : R)
| RZGate (theta : R).

Definition circuit : Type := list instr.

Definition matrix_of (g : instr) : Matrix2 :=
  match g with
  | HGate => H_matrix
  | XGate => X_matrix
  | YGate => Y_matrix
  | ZGate => Z_matrix
  | RXGate theta => RX_matrix theta
  | RYGate theta => RY_matrix theta
  | RZGate theta => RZ_matrix theta
  end.

(** Modelled from the spec: the simulator of the quantum library applies a
    gate as the matrix-vector product [U . state] (section 4.1,
    [applyGate]), with no renormalisation afterwards. *)
Definition applyGate (s : State) (g : instr) : State :=
  Mapply (matrix_of g) s.

(** [QuantumCircuit(q)] starts in the state [(1, 0)]. *)
Definition initial_state : State := (C1, C0).

(** [execute(circ, backend).result().get_statevector()]: the gates of the
    circuit applied in the order they were appended. *)
Definition statevector (circ : circuit) : State :=
  fold_left applyGate circ initial_state.

Definition norm2 (s : State) : R := Cnorm2 (fst s) + Cnorm2 (snd s).

End StateEngine.
Import StateEngine.

(** ** The array operations the sonifier calls

    Each definition gives the value of the numerical library's function on
    exact reals.  A result that is not a finite number (a division by zero) is
    [None]. *)

Module Numpy.

(** Conversion of a float to an integer: truncation toward zero. *)
Definition Rtrunc (r : R) : Z :=
  if Rle_dec 0 r then Int_part r else (- Int_part (- r))%Z.

(** Wrap-around of an integer into the 16-bit signed range. *)
Definition wrap16 (n : Z) : Z := ((n + 32768) mod 65536 - 32768)%Z.

(** [np.linspace(start, stop, num, False)]: [num] points
    [start + i * step], [step = (stop - start) / num], the end point left
    out.  The source passes the float [seconds * fs] for [num]; it is
    converted to an integer by truncation. *)
Definition linspace (start stop num : R) : list R :=
  let n := Z.to_nat (Rtrunc num) in
  let step := (stop - start) / INR n in
  map (fun i => INR i * step + start) (seq 0 n).

(** Real part of [np.arccos z] on a complex argument, the principal
    inverse cosine: [acos (x / A)] with [A = (|z + 1| + |z - 1|) / 2].
    The source keeps only this real part ([np.real]). *)
Definition arccos_A (z : C) : R :=
  (Cabs (Cadd z C1) + Cabs (Cadd z (Copp C1))) / 2.

Definition arccos_re (z : C) : R := acos (Re z / arccos_A z).

(** [np.arctan2 y x], in [(-PI, PI]]. *)
Definition arctan2 (y x : R) : R :=
  if Rlt_dec 0 x then atan (y / x)
  else if Rlt_dec x 0 then
    (if Rle_dec 0 y then atan (y / x) + PI else atan (y / x) - PI)
  else if Rlt_dec 0 y then PI / 2
  else if Rlt_dec y 0 then - (PI / 2)
  else 0.

(** [np.angle z]: the argument of a complex number. *)
Definition angle (z : C) : R := arctan2 (Im z) (Re z).

(** [np.dstack((left, right))[0]]: one row [(left_i, right_i)] per sample. *)
Definition dstack0 (left right : list R) : list (R * R) := combine left right.

(** All the entries of a two-column array, row by row. *)
Definition ravel (a : list (R * R)) : list R :=
  flat_map (fun row => [fst row; snd row]) a.

(** [np.max] over all entries; an empty array has no maximum. *)
Definition amax (l : list R) : option R :=
  match l with
  | [] => None
  | v :: l' => Some (fold_left Rmax l' v)
  end.

(** [np.max(np.abs(a))]. *)
Definition max_abs (a : list (R * R)) : option R := amax (map Rabs (ravel a)).

(** Float division [a / b], as the exact quotient (rounding is not
    modelled); there is no finite result when the divisor is zero. *)
Definition true_divide (a b : R) : option R :=
  if Req_dec_T b 0 then None else Some (a / b).

(** [astype(np.int16)] of one entry: truncation toward zero, then the
    16-bit wrap-around.  What the conversion makes of a non-finite entry is
    left to the platform, so such an entry has no value here. *)
Definition astype_int16 (v : option R) : option Z :=
  option_map (fun r => wrap16 (Rtrunc r)) v.

End Numpy.
Import Numpy.

(** ** Sonifier: [sound] *)

Module Sonifier.

(** Source lines 20-43: a chain of independent [if]s binds [f]; a note
    outside the table leaves [f] unbound. *)
Definition note_frequency (note : string) : option R :=
  let f := None in
  let f := if (note =? "C")%string
           then Some (440 * Rpower 2 (-9 / 12)) else f in
  let f := if ((note =? "C#") || (note =? "Db"))%string
           then Some (440 * Rpower 2 (-8 / 12)) else f in
  let f := if (note =? "D")%string
           then Some (440 * Rpower 2 (-7 / 12)) else f in
  let f := if ((note =? "D#") || (note =? "Eb"))%string
           then Some (440 * Rpower 2 (-6 / 12)) else f in
  let f := if (note =? "E")%string
           then Some (440 * Rpower 2 (-5 / 12)) else f in
  let f := if (note =? "F")%string
           then Some (440 * Rpower 2 (-4 / 12)) else f in
  let f := if ((note =? "F#") || (note =? "Gb"))%string
           then Some (440 * Rpower 2 (-3 / 12)) else f in
  let f := if (note =? "G")%string
           then Some (440 * Rpower 2 (-2 / 12)) else f in
  let f := if ((note =? "G#") || (note =? "Ab"))%string
           then Some (440 * Rpower 2 (-1 / 12)) else f in
  let f := if (note =? "A")%string
           then Some (440 * Rpower 2 (0 / 12)) else f in
  let f := if ((note =? "A#") || (note =? "Bb"))%string
           then Some (440 * Rpower 2 (1 / 12)) else f in
  let f := if (note =? "B")%string
           then Some (440 * Rpower 2 (2 / 12)) else f in
  f.

(** Line 48: [theta = np.real(2*np.arccos(sv[0]))]. *)
Definition sound_theta (sv : State) : R := 2 * arccos_re (fst sv).

(** Lines 49-51: [phi = np.angle(sv[1])], moved into [[0, 2 PI)]. *)
Definition sound_phi (sv : State) : R :=
  let phi := angle (snd sv) in
  if Rlt_dec phi 0 then 2 * pi + phi else phi.

Definition fs : R := 44100.
Definition seconds : R := 0.5.

(** Line 55. *)
Definition sound_t : list R := linspace 0 seconds (seconds * fs).

(** Lines 58-59. *)
Definition sound_left (theta f : R) : list R :=
  map (fun t => cos (theta / 2) * sin (f * t * 2 * pi)) sound_t.

Definition sound_right (theta phi f : R) : list R :=
  map (fun t => sin (theta / 2)
                * sin (Rpower 2 (phi / (2 * PI)) * f * t * 2 * pi + pi / 2))
      sound_t.

(** Line 61: the buffer before normalisation. *)
Definition sound_note (theta phi f : R) : list (R * R) :=
  dstack0 (sound_left theta f) (sound_right theta phi f).

(** Line 64: every entry times [2**15 - 1], divided by the peak.  There is
    no test on the peak.  [None] for the whole result is the exception
    raised for the maximum of an empty array; [None] for an entry is a
    non-finite float. *)
Definition scale (note : list (R * R)) : option (list (option R * option R)) :=
  match max_abs note with
  | None => None
  | Some peak =>
      Some (map (fun row => (true_divide (fst row * (2 ^ 15 - 1)) peak,
                             true_divide (snd row * (2 ^ 15 - 1)) peak))
                note)
  end.

(** One quantised stereo pair; [None] is an entry without a defined
    value. *)
Definition frame : Type := (option Z * option Z)%type.

(** Line 65: [audio.astype(np.int16)]. *)
Definition quantise (audio : list (option R * option R)) : list frame :=
  map (fun row => (astype_int16 (fst row), astype_int16 (snd row))) audio.

(** Lines 64-65 together. *)
Definition normalise (note : list (R * R)) : option (list frame) :=
  option_map quantise (scale note).

(** Lines 20-65 once the state vector [sv] has been read: the buffer handed
    to the playback sink, [None] when the call raises (unbound [f]). *)
Definition sonify (sv : State) (note : string) : option (list frame) :=
  match note_frequency note with
  | None => None
  | Some f =>
      let theta := sound_theta sv in
      let phi := sound_phi sv in
      normalise (sound_note theta phi f)
  end.

(** [sound(circ, note)]: lines 45-47 read the state vector of the
    circuit. *)
Definition sound (circ : circuit) (note : string) : option (list frame) :=
  sonify (statevector circ) note.

(** A quantised pair whose two samples are defined and within the
    symmetric 16-bit range. *)
Definition frame_in_range (fr : frame) : Prop :=
  match fr with
  | (Some l, Some r) =>
      (-32767 <= l <= 32767)%Z /\ (-32767 <= r <= 32767)%Z
  | _ => False
  end.

(** The integer [n] is the real [x] rounded toward zero: its magnitude is
    the integer part of the magnitude of [x] and it is never of the
    opposite sign. *)
Definition toward_zero (x : R) (n : Z) : Prop :=
  IZR (Z.abs n) <= Rabs x < IZR (Z.abs n) + 1
  /\ (0 <= x -> (0 <= n)%Z)
  /\ (x <= 0 -> (n <= 0)%Z).

(** The sample [out] is what lines 64-65 make of the entry [v] of a buffer
    whose peak is [peak], with no overflow: the integer the conversion
    truncates [v * (2**15 - 1) / peak] to lies in the symmetric 16-bit range
    before any wrap-around, so the wrap-around leaves it as it is. *)
Definition quantised_without_wrap (v peak : R) (out : option Z) : Prop :=
  exists n : Z,
    n = Rtrunc (v * (2 ^ 15 - 1) / peak)
    /\ toward_zero (v * (2 ^ 15 - 1) / peak) n
    /\ (-32767 <= n <= 32767)%Z
    /\ wrap16 n = n
    /\ out = Some n.

End Sonifier.
Import Sonifier.

(** ** The key handler *)

Module Game.

Definition entry_list : list string :=
  ["c"; "C"; "d"; "D"; "e"; "f"; "F"; "g"; "G"; "a"; "A"; "b"]%string.
Definition note_list : list string :=
  ["C"; "C#"; "D"; "D#"; "E"; "F"; "F#"; "G"; "G#"; "A"; "A#"; "B"]%string.

(** Source lines 100-120: a chain of independent [if]s on the key symbol,
    each appending one gate to the circuit. *)
Definition key_press_gates (circ : circuit) (char : string) : circuit :=
  let circ := if (char =? "h")%string then circ ++ [HGate] else circ in
  let circ := if (char =? "1")%string then circ ++ [XGate] else circ in
  let circ := if (char =? "2")%string then circ ++ [YGate] else circ in
  let circ := if (char =? "3")%string then circ ++ [ZGate] else circ in
  let circ := if (char =? "x")%string then circ ++ [RXGate (pi / 6)] else circ in
  let circ := if (char =? "y")%string then circ ++ [RYGate (pi / 6)] else circ in
  let circ := if (char =? "z")%string then circ ++ [RZGate (pi / 6)] else circ in
  let circ := if (char =? "X")%string then circ ++ [RXGate (- pi / 6)] else circ in
  let circ := if (char =? "Y")%string then circ ++ [RYGate (- pi / 6)] else circ in
  let circ := if (char =? "Z")%string then circ ++ [RZGate (- pi / 6)] else circ in
  circ.

(** Source lines 122-126: the buffers played for this key, in order. *)
Definition key_press_sounds (circ : circuit) (char : string)
  : list (option (list frame)) :=
  flat_map (fun i =>
              if (char =? nth i entry_list EmptyString)%string
              then [sound circ (nth i note_list EmptyString)]
              else [])
           (seq 0 12).

(** [key_press]: the circuit after the key and the buffers it played. *)
Definition key_press (circ : circuit) (char : string)
  : circuit * list (option (list frame)) :=
  let circ := key_press_gates circ char in
  (circ, key_press_sounds circ char).

(** Several keys pressed one after the other. *)
Definition press_all (circ : circuit) (keys : list string) : circuit :=
  fold_left (fun circ char => fst (key_press circ char)) keys circ.

End Game.
Import Game.

(** ** The rest of the key handler *)

Module Handler.

(** The key symbols the gate part of [key_press] compares with (source
    lines 101-120). *)
Definition gate_keys : list string :=
  ["h"; "1"; "2"; "3"; "x"; "y"; "z"; "X"; "Y"; "Z"]%string.

Definition is_gate_key (char : string) : bool :=
  existsb (String.eqb char) gate_keys.

(** The spellings the [if] chain of [sound] compares [note] with (source
    lines 20-43). *)
Definition note_names : list string :=
  ["C"; "C#"; "Db"; "D"; "D#"; "Eb"; "E"; "F"; "F#"; "Gb"; "G"; "G#"; "Ab";
   "A"; "A#"; "Bb"; "B"]%string.

(** Source lines 94-95: the note label starts as [note_list[0]]. *)
Definition initial_text : string := nth 0 note_list EmptyString.

(** Source lines 122-125: a matching note key replaces the label by the
    name of its note. *)
Definition key_press_text (text char : string) : string :=
  fold_left (fun text i =>
               if (char =? nth i entry_list EmptyString)%string
               then nth i note_list EmptyString
               else text)
            (seq 0 12) text.

(** The label after several keys. *)
Definition text_after (text : string) (keys : list string) : string :=
  fold_left key_press_text keys text.

(** The state vector with both amplitudes negated. *)
Definition negate (s : State) : State := (Copp (fst s), Copp (snd s)).

(** A quantised pair with a sample, on either side, whose magnitude is
    32766 or 32767: the top of the symmetric 16-bit range, up to one
    quantisation step. *)
Definition near_full_scale (fr : frame) : Prop :=
  exists n : Z,
    (fst fr = Some n \/ snd fr = Some n)
    /\ (32766 <= Z.abs n <= 32767)%Z.

End Handler.
Import Handler.

(** * Properties *)

(** ** Unitarity of the catalogue *)

Section GateFacts.

Lemma inv_sqrt2_sq : / sqrt 2 * / sqrt 2 = / 2.
Proof.
  rewrite <- Rinv_mult, sqrt_sqrt by lra. reflexivity.
Qed.

Lemma cos2_sin2 (t : R) : cos t * cos t + sin t * sin t = 1.
Proof.
  pose proof (sin2_cos2 t) as E. unfold Rsqr in E. lra.
Qed.

(** Unfold a gate application down to real arithmetic. *)
Ltac gate_arith :=
  unfold applyGate, Mapply, matrix_of, norm2, Cnorm2,
    H_matrix, X_matrix, Y_matrix, Z_matrix, RX_matrix, RY_matrix, RZ_matrix;
  cbn [m00 m01 m10 m11];
  unfold Cadd, Cmul, Copp, Cexpi, RtoC, C0, C1, Ci, Re, Im;
  cbn [fst snd].

Lemma applyGate_norm2 (s : State) (g : instr) :
  norm2 (applyGate s g) = norm2 s.
Proof.
  destruct s as [[a b] [c d]].
  destruct g as [ | | | | t | t | t ]; gate_arith.
  - pose proof inv_sqrt2_sq as E. set (r := / sqrt 2) in *. clearbody r.
    assert (E2 : 2 * (r * r) = 1) by (rewrite E; field).
    nsatz.
  - ring.
  - ring.
  - ring.
  - pose proof (cos2_sin2 (t / 2)) as E.
    set (co := cos (t / 2)) in *. set (si := sin (t / 2)) in *. clearbody co si.
    replace (a * a + b * b + (c * c + d * d))
      with ((co * co + si * si) * (a * a + b * b + (c * c + d * d)))
      by (rewrite E; ring).
    ring.
  - pose proof (cos2_sin2 (t / 2)) as E.
    set (co := cos (t / 2)) in *. set (si := sin (t / 2)) in *. clearbody co si.
    replace (a * a + b * b + (c * c + d * d))
      with ((co * co + si * si) * (a * a + b * b + (c * c + d * d)))
      by (rewrite E; ring).
    ring.
  - rewrite cos_neg, sin_neg.
    pose proof (cos2_sin2 (t / 2)) as E.
    set (co := cos (t / 2)) in *. set (si := sin (t / 2)) in *. clearbody co si.
    replace (a * a + b * b + (c * c + d * d))
      with ((co * co + si * si) * (a * a + b * b + (c * c + d * d)))
      by (rewrite E; ring).
    ring.
Qed.

Lemma fold_applyGate_norm2 (circ : circuit) (s : State) :
  norm2 (fold_left applyGate circ s) = norm2 s.
Proof.
  revert s. induction circ as [ | g circ IH ]; intros s; cbn.
  - reflexivity.
  - rewrite IH. apply applyGate_norm2.
Qed.

Lemma statevector_norm2 (circ : circuit) : norm2 (statevector circ) = 1.
Proof.
  unfold statevector. rewrite fold_applyGate_norm2.
  unfold norm2, initial_state, Cnorm2, C0, C1, Re, Im. cbn. ring.
Qed.

Lemma statevector_app (circ : circuit) (g : instr) :
  statevector (circ ++ [g]) = applyGate (statevector circ) g.
Proof.
  unfold statevector. rewrite fold_left_app. reflexivity.
Qed.

(** A rotation by [- t] undoes the rotation by [t] about the same axis. *)
Lemma RX_inverse (t : R) (s : State) :
  applyGate (applyGate s (RXGate t)) (RXGate (- t)) = s.
Proof.
  destruct s as [[a b] [c d]]. gate_arith.
  replace (- t / 2) with (- (t / 2)) by field.
  rewrite cos_neg, sin_neg.
  pose proof (cos2_sin2 (t / 2)) as E.
  set (co := cos (t / 2)) in *. set (si := sin (t / 2)) in *. clearbody co si.
  repeat f_equal; nsatz.
Qed.

Lemma RY_inverse (t : R) (s : State) :
  applyGate (applyGate s (RYGate t)) (RYGate (- t)) = s.
Proof.
  destruct s as [[a b] [c d]]. gate_arith.
  replace (- t / 2) with (- (t / 2)) by field.
  rewrite cos_neg, sin_neg.
  pose proof (cos2_sin2 (t / 2)) as E.
  set (co := cos (t / 2)) in *. set (si := sin (t / 2)) in *. clearbody co si.
  repeat f_equal; nsatz.
Qed.

Lemma RZ_inverse (t : R) (s : State) :
  applyGate (applyGate s (RZGate t)) (RZGate (- t)) = s.
Proof.
  destruct s as [[a b] [c d]]. gate_arith.
  replace (- t / 2) with (- (t / 2)) by field.
  rewrite Ropp_involutive, cos_neg, sin_neg.
  pose proof (cos2_sin2 (t / 2)) as E.
  set (co := cos (t / 2)) in *. set (si := sin (t / 2)) in *. clearbody co si.
  repeat f_equal; nsatz.
Qed.

Lemma H_involution (s : State) :
  applyGate (applyGate s HGate) HGate = s.
Proof.
  destruct s as [[a b] [c d]]. gate_arith.
  pose proof inv_sqrt2_sq as E. set (r := / sqrt 2) in *. clearbody r.
  assert (E2 : 2 * (r * r) = 1) by (rewrite E; field).
  repeat f_equal; nsatz.
Qed.

End GateFacts.

(** ** Facts about the array operations *)

Section NumpyFacts.

Lemma Int_part_IZR (n : Z) : Int_part (IZR n) = n.
Proof.
  symmetry. apply Int_part_spec. lra.
Qed.

Lemma Int_part_range (r : R) (n : Z) :
  0 <= r <= IZR n -> (0 <= Int_part r <= n)%Z.
Proof.
  intros [H0 Hn]. destruct (base_Int_part r) as [Hle Hgt]. split.
  - assert (Hlt : IZR (-1) < IZR (Int_part r)) by lra.
    apply lt_IZR in Hlt. lia.
  - apply le_IZR. lra.
Qed.

Lemma Rtrunc_IZR (n : Z) : Rtrunc (IZR n) = n.
Proof.
  unfold Rtrunc. destruct (Rle_dec 0 (IZR n)) as [Hn | Hn].
  - apply Int_part_IZR.
  - rewrite <- opp_IZR, Int_part_IZR. lia.
Qed.

(** Truncation never grows the magnitude. *)
Lemma Rtrunc_range (r : R) (n : Z) :
  - IZR n <= r <= IZR n -> (- n <= Rtrunc r <= n)%Z.
Proof.
  intros [Hlo Hhi]. unfold Rtrunc. destruct (Rle_dec 0 r) as [Hr | Hr].
  - assert (H := Int_part_range r n (conj Hr Hhi)). lia.
  - assert (H : (0 <= Int_part (- r) <= n)%Z)
      by (apply Int_part_range; lra).
    lia.
Qed.

Lemma wrap16_small (n : Z) :
  (-32768 <= n <= 32767)%Z -> wrap16 n = n.
Proof.
  intros Hn. unfold wrap16. rewrite Z.mod_small by lia. lia.
Qed.

(** The number of samples: [int(0.5 * 44100) = 22050]. *)
Lemma samples_count : Rtrunc (seconds * fs) = 22050%Z.
Proof.
  replace (seconds * fs) with (IZR 22050) by (unfold seconds, fs; lra).
  apply Rtrunc_IZR.
Qed.

Lemma sound_t_eq :
  sound_t = map (fun i => INR i / 44100) (seq 0 (Z.to_nat 22050)).
Proof.
  unfold sound_t, linspace. rewrite samples_count.
  apply map_ext. intros i.
  replace (INR (Z.to_nat 22050)) with 22050
    by (rewrite INR_IZR_INZ, Z2Nat.id by lia; reflexivity).
  unfold seconds. lra.
Qed.

Lemma sound_t_length : Z.of_nat (length sound_t) = 22050%Z.
Proof.
  rewrite sound_t_eq, length_map, length_seq. apply Z2Nat.id. lia.
Qed.

Lemma sound_t_nth (i : nat) :
  (Z.of_nat i < 22050)%Z -> nth i sound_t 0 = INR i / 44100.
Proof.
  intros Hi. rewrite sound_t_eq.
  assert (Hlt : (i < Z.to_nat 22050)%nat) by lia.
  rewrite nth_indep with (d' := (fun i => INR i / 44100) 0%nat)
    by (rewrite length_map, length_seq; exact Hlt).
  rewrite (map_nth (fun i => INR i / 44100)), seq_nth by exact Hlt.
  reflexivity.
Qed.

End NumpyFacts.

(** ** Facts about the maximum and the buffer *)

Section BufferFacts.

Lemma fold_left_Rmax_init (l : list R) (v : R) : v <= fold_left Rmax l v.
Proof.
  revert v. induction l as [ | u l IH ]; intros v; cbn.
  - lra.
  - apply Rle_trans with (Rmax v u); [ apply Rmax_l | apply IH ].
Qed.

Lemma fold_left_Rmax_ub (l : list R) (v u : R) :
  In u l -> u <= fold_left Rmax l v.
Proof.
  revert v. induction l as [ | w l IH ]; intros v Hin; cbn.
  - destruct Hin.
  - destruct Hin as [-> | Hin].
    + apply Rle_trans with (Rmax v u);
        [ apply Rmax_r | apply fold_left_Rmax_init ].
    + apply IH, Hin.
Qed.

Lemma fold_left_Rmax_in (l : list R) (v : R) :
  fold_left Rmax l v = v \/ In (fold_left Rmax l v) l.
Proof.
  revert v. induction l as [ | w l IH ]; intros v; cbn.
  - left. reflexivity.
  - destruct (IH (Rmax v w)) as [E | Hin].
    + rewrite E. unfold Rmax. destruct (Rle_dec v w); auto.
    + right. right. exact Hin.
Qed.

Lemma amax_ub (l : list R) (m u : R) :
  amax l = Some m -> In u l -> u <= m.
Proof.
  destruct l as [ | v l ]; cbn; intros E Hin; [ discriminate | ].
  injection E as <-. destruct Hin as [-> | Hin].
  - apply fold_left_Rmax_init.
  - apply fold_left_Rmax_ub, Hin.
Qed.

Lemma amax_in (l : list R) (m : R) : amax l = Some m -> In m l.
Proof.
  destruct l as [ | v l ]; cbn; intros E; [ discriminate | ].
  injection E as <-. destruct (fold_left_Rmax_in l v) as [-> | Hin]; auto.
Qed.

Lemma amax_some (l : list R) : l <> [] -> exists m, amax l = Some m.
Proof.
  destruct l as [ | v l ]; [ congruence | ]. intros _. cbn. eauto.
Qed.

Lemma ravel_in (a : list (R * R)) (row : R * R) :
  In row a -> In (fst row) (ravel a) /\ In (snd row) (ravel a).
Proof.
  intros Hin. unfold ravel. split; apply in_flat_map; exists row; cbn; auto.
Qed.

(** Every entry is bounded in magnitude by the peak. *)
Lemma max_abs_ub (a : list (R * R)) (peak : R) (row : R * R) :
  max_abs a = Some peak -> In row a ->
  Rabs (fst row) <= peak /\ Rabs (snd row) <= peak.
Proof.
  intros E Hin. destruct (ravel_in a row Hin) as [H1 H2].
  split; apply (amax_ub _ _ _ E), in_map; assumption.
Qed.

Lemma max_abs_nonneg (a : list (R * R)) (peak : R) :
  max_abs a = Some peak -> 0 <= peak.
Proof.
  intros E. apply amax_in in E. apply in_map_iff in E.
  destruct E as [v [<- _]]. apply Rabs_pos.
Qed.

Lemma max_abs_some (a : list (R * R)) :
  a <> [] -> exists peak, max_abs a = Some peak.
Proof.
  intros Ha. apply amax_some. destruct a as [ | row a ]; [ congruence | ].
  cbn. discriminate.
Qed.

Lemma combine_map_same {A B D : Type} (g : A -> B) (k : A -> D) (l : list A) :
  combine (map g l) (map k l) = map (fun t => (g t, k t)) l.
Proof.
  induction l as [ | t l IH ]; cbn; [ reflexivity | now rewrite IH ].
Qed.

(** The buffer as one map over the time vector. *)
Lemma sound_note_eq (theta phi f : R) :
  sound_note theta phi f =
  map (fun t =>
         (cos (theta / 2) * sin (f * t * 2 * pi),
          sin (theta / 2)
          * sin (Rpower 2 (phi / (2 * PI)) * f * t * 2 * pi + pi / 2)))
      sound_t.
Proof.
  unfold sound_note, dstack0, sound_left, sound_right.
  apply combine_map_same.
Qed.

Lemma sound_note_length (theta phi f : R) :
  Z.of_nat (length (sound_note theta phi f)) = 22050%Z.
Proof.
  rewrite sound_note_eq, length_map. apply sound_t_length.
Qed.

Lemma sound_note_nth (theta phi f : R) (i : nat) :
  (Z.of_nat i < 22050)%Z ->
  nth i (sound_note theta phi f) (0, 0) =
  (cos (theta / 2) * sin (f * (INR i / 44100) * 2 * pi),
   sin (theta / 2)
   * sin (Rpower 2 (phi / (2 * PI)) * f * (INR i / 44100) * 2 * pi + pi / 2)).
Proof.
  intros Hi. rewrite sound_note_eq.
  set (row := fun t : R => (cos (theta / 2) * sin (f * t * 2 * pi),
          sin (theta / 2)
          * sin (Rpower 2 (phi / (2 * PI)) * f * t * 2 * pi + pi / 2))).
  assert (Hlen : (i < length sound_t)%nat)
    by (pose proof sound_t_length; lia).
  rewrite nth_indep with (d' := row 0) by (rewrite length_map; exact Hlen).
  rewrite (map_nth row), sound_t_nth by exact Hi. reflexivity.
Qed.

Lemma sound_note_in (theta phi f : R) (i : nat) :
  (Z.of_nat i < 22050)%Z ->
  In (nth i (sound_note theta phi f) (0, 0)) (sound_note theta phi f).
Proof.
  intros Hi. apply nth_In. pose proof (sound_note_length theta phi f). lia.
Qed.

Lemma scale_length (note : list (R * R)) (audio : list (option R * option R)) :
  scale note = Some audio -> length audio = length note.
Proof.
  unfold scale. destruct (max_abs note); [ | discriminate ].
  intros E. injection E as <-. apply length_map.
Qed.

Lemma normalise_length (note : list (R * R)) (audio : list frame) :
  normalise note = Some audio -> length audio = length note.
Proof.
  unfold normalise. destruct (scale note) as [ scaled | ] eqn:E;
    [ | discriminate ].
  cbn. intros E'. injection E' as <-. unfold quantise.
  rewrite length_map. apply scale_length, E.
Qed.

Lemma normalise_some (note : list (R * R)) :
  note <> [] -> exists audio, normalise note = Some audio.
Proof.
  intros Hne. destruct (max_abs_some note Hne) as [peak E].
  unfold normalise, scale. rewrite E. cbn. eauto.
Qed.

Lemma sound_note_nonempty (theta phi f : R) : sound_note theta phi f <> [].
Proof.
  intros E. pose proof (sound_note_length theta phi f) as L.
  rewrite E in L. cbn in L. lia.
Qed.

End BufferFacts.

(** ** Facts about the pitch table and the two angles *)

Section AngleFacts.

Lemma pitch_range (e : R) : e < 1 -> 0 < 440 * Rpower 2 e < 880.
Proof.
  intros He.
  assert (Hpos : 0 < Rpower 2 e) by (unfold Rpower; apply exp_pos).
  assert (Hlt : Rpower 2 e < Rpower 2 1) by (apply Rpower_lt; lra).
  rewrite Rpower_1 in Hlt by lra. lra.
Qed.

(** Every note of [note_list] has a frequency, below 880 Hz. *)
Lemma note_list_frequency (note : string) :
  In note note_list ->
  exists f, note_frequency note = Some f /\ 0 < f < 880.
Proof.
  unfold note_list. cbn [In]. intros Hin.
  repeat (destruct Hin as [<- | Hin];
          [ eexists; split; [ reflexivity | apply pitch_range; lra ] | ]).
  destruct Hin.
Qed.

(** Whatever the spelling of the note, a bound frequency is in the
    equal-tempered table. *)
Lemma note_frequency_range (note : string) (f : R) :
  note_frequency note = Some f -> 0 < f < 880.
Proof.
  unfold note_frequency.
  repeat match goal with
         | |- (if ?c then _ else _) = Some _ -> _ =>
             destruct c;
             [ intros E; injection E as <-; apply pitch_range; lra | ]
         end.
  discriminate.
Qed.

Section Arccos.

Variable z : C.

Let p : R := Cabs (Cadd z C1).
Let q : R := Cabs (Cadd z (Copp C1)).

Lemma arccos_p_sq : p * p = (Re z + 1) * (Re z + 1) + Im z * Im z.
Proof.
  unfold p, Cabs. rewrite sqrt_sqrt.
  - unfold Cnorm2, Cadd, C1, Re, Im. cbn [fst snd]. ring.
  - unfold Cnorm2. nra.
Qed.

Lemma arccos_q_sq : q * q = (Re z - 1) * (Re z - 1) + Im z * Im z.
Proof.
  unfold q, Cabs. rewrite sqrt_sqrt.
  - unfold Cnorm2, Cadd, Copp, C1, Re, Im. cbn [fst snd]. ring.
  - unfold Cnorm2. nra.
Qed.

Lemma arccos_p_nonneg : 0 <= p.
Proof. apply sqrt_pos. Qed.

Lemma arccos_q_nonneg : 0 <= q.
Proof. apply sqrt_pos. Qed.

Lemma arccos_A_eq : arccos_A z = (p + q) / 2.
Proof. reflexivity. Qed.

Lemma arccos_A_ge_1 : 1 <= arccos_A z.
Proof.
  rewrite arccos_A_eq.
  pose proof arccos_p_sq. pose proof arccos_q_sq.
  pose proof arccos_p_nonneg. pose proof arccos_q_nonneg.
  assert (Re z + 1 <= p) by nra.
  assert (1 - Re z <= q) by nra.
  lra.
Qed.

Lemma arccos_A_abs : Rabs (Re z) <= arccos_A z.
Proof.
  rewrite arccos_A_eq.
  pose proof arccos_p_sq. pose proof arccos_q_sq.
  pose proof arccos_p_nonneg. pose proof arccos_q_nonneg.
  assert (Re z + 1 <= p) by nra.
  assert (Re z - 1 <= q) by nra.
  assert (- (Re z + 1) <= p) by nra.
  assert (1 - Re z <= q) by nra.
  unfold Rabs. destruct (Rcase_abs (Re z)); lra.
Qed.

Lemma arccos_A_real : Im z = 0 -> -1 <= Re z <= 1 -> arccos_A z = 1.
Proof.
  intros Hy Hx. rewrite arccos_A_eq.
  pose proof arccos_p_sq as Hp. pose proof arccos_q_sq as Hq.
  pose proof arccos_p_nonneg. pose proof arccos_q_nonneg.
  rewrite Hy in Hp, Hq.
  assert (p = Re z + 1) by nra.
  assert (q = 1 - Re z) by nra.
  lra.
Qed.

Lemma arccos_A_gt_1 : Im z <> 0 -> 1 < arccos_A z.
Proof.
  intros Hy. rewrite arccos_A_eq.
  pose proof arccos_p_sq. pose proof arccos_q_sq.
  pose proof arccos_p_nonneg. pose proof arccos_q_nonneg.
  assert (0 < Im z * Im z) by nra.
  assert (Re z + 1 < p) by nra.
  assert (1 - Re z <= q) by nra.
  lra.
Qed.

(** The argument handed to the real [acos] is always in [[-1, 1]]. *)
Lemma arccos_arg_range : -1 <= Re z / arccos_A z <= 1.
Proof.
  pose proof arccos_A_ge_1 as H1. pose proof arccos_A_abs as Ha.
  assert (HA : 0 < arccos_A z) by lra.
  assert (Hx : - arccos_A z <= Re z <= arccos_A z).
  { unfold Rabs in Ha. destruct (Rcase_abs (Re z)); lra. }
  split.
  - apply Rmult_le_reg_r with (arccos_A z); [ exact HA | ].
    unfold Rdiv. rewrite Rmult_assoc, Rinv_l by lra. lra.
  - apply Rmult_le_reg_r with (arccos_A z); [ exact HA | ].
    unfold Rdiv. rewrite Rmult_assoc, Rinv_l by lra. lra.
Qed.

End Arccos.

End AngleFacts.

(** ** The polar angle and the azimuthal phase *)

Section ThetaPhiFacts.

Lemma acos_inj (u v : R) :
  -1 <= u <= 1 -> -1 <= v <= 1 -> acos u = acos v -> u = v.
Proof.
  intros Hu Hv E. rewrite <- (cos_acos u Hu), <- (cos_acos v Hv), E.
  reflexivity.
Qed.

Lemma acos_le_half_PI_iff (b : R) :
  -1 <= b <= 1 -> (acos b <= PI / 2 <-> 0 <= b).
Proof.
  intros Hb. pose proof (acos_bound b) as [Hlo Hhi].
  pose proof PI_RGT_0 as Hpi. split.
  - intros Hle. rewrite <- (cos_acos b Hb). apply cos_ge_0; lra.
  - intros H0. destruct (Rle_dec (acos b) (PI / 2)) as [Hle | Hgt];
      [ exact Hle | exfalso ].
    assert (Hneg : cos (acos b) < 0) by (apply cos_lt_0; lra).
    rewrite cos_acos in Hneg by exact Hb. lra.
Qed.

(** The real part of the complex inverse cosine is the real inverse cosine
    of the real part exactly on the real and on the imaginary amplitudes. *)
Lemma arccos_re_real_part_iff (a0 : C) :
  Cnorm2 a0 <= 1 ->
  (2 * arccos_re a0 = 2 * acos (Re a0) <-> Im a0 = 0 \/ Re a0 = 0).
Proof.
  intros Hn. unfold Cnorm2 in Hn.
  assert (Hx : -1 <= Re a0 <= 1) by nra.
  pose proof (arccos_A_ge_1 a0) as HA.
  unfold arccos_re. split.
  - intros E.
    assert (E' : Re a0 / arccos_A a0 = Re a0).
    { apply acos_inj; [ apply arccos_arg_range | exact Hx | lra ]. }
    destruct (Req_dec (Im a0) 0) as [Hy | Hy]; [ left; exact Hy | right ].
    pose proof (arccos_A_gt_1 a0 Hy) as Hgt.
    assert (E2 : Re a0 / arccos_A a0 * arccos_A a0 = Re a0)
      by (field; lra).
    rewrite E' in E2. nra.
  - intros [Hy | Hx0].
    + rewrite (arccos_A_real a0 Hy Hx).
      replace (Re a0 / 1) with (Re a0) by field. reflexivity.
    + rewrite Hx0.
      replace (0 / arccos_A a0) with 0 by (unfold Rdiv; ring). reflexivity.
Qed.

Lemma sound_theta_range (sv : State) : 0 <= sound_theta sv <= 2 * PI.
Proof.
  unfold sound_theta, arccos_re.
  pose proof (acos_bound (Re (fst sv) / arccos_A (fst sv))). lra.
Qed.

Lemma sound_theta_le_PI_iff (sv : State) :
  sound_theta sv <= PI <-> 0 <= Re (fst sv).
Proof.
  pose proof (arccos_A_ge_1 (fst sv)) as HA.
  pose proof (acos_le_half_PI_iff _ (arccos_arg_range (fst sv))) as Hiff.
  unfold sound_theta, arccos_re. split.
  - intros Hle.
    assert (H0 : 0 <= Re (fst sv) / arccos_A (fst sv)) by (apply Hiff; lra).
    apply Rmult_le_compat_r with (r := arccos_A (fst sv)) in H0; [ | lra ].
    unfold Rdiv in H0. rewrite Rmult_assoc, Rinv_l in H0 by lra. lra.
  - intros H0.
    assert (Hb : 0 <= Re (fst sv) / arccos_A (fst sv)).
    { apply Rmult_le_pos; [ exact H0 | ].
      apply Rlt_le, Rinv_0_lt_compat. lra. }
    apply Hiff in Hb. lra.
Qed.

Lemma arctan2_range (v u : R) : - PI < arctan2 v u <= PI.
Proof.
  pose proof PI_RGT_0 as Hpi. unfold arctan2.
  pose proof (atan_bound (v / u)) as [Hlo Hhi].
  destruct (Rlt_dec 0 u) as [Hu | Hu]; [ lra | ].
  destruct (Rlt_dec u 0) as [Hu' | Hu'].
  - destruct (Rle_dec 0 v) as [Hv | Hv].
    + assert (Hq : v / u <= 0).
      { unfold Rdiv. replace 0 with (v * 0) by ring.
        apply Rmult_le_compat_l; [ exact Hv | ].
        apply Rlt_le, Rinv_lt_0_compat, Hu'. }
      assert (Ha : atan (v / u) <= 0).
      { rewrite <- atan_0. destruct Hq as [Hq | ->];
          [ apply Rlt_le, atan_increasing, Hq | lra ]. }
      lra.
    + assert (Hq : 0 < v / u).
      { unfold Rdiv. replace (v * / u) with ((- v) * (- / u)) by ring.
        apply Rmult_lt_0_compat; [ lra | ].
        pose proof (Rinv_lt_0_compat u Hu'). lra. }
      assert (Ha : 0 < atan (v / u)).
      { rewrite <- atan_0. apply atan_increasing, Hq. }
      lra.
  - destruct (Rlt_dec 0 v); [ lra | ]. destruct (Rlt_dec v 0); lra.
Qed.

Lemma sound_phi_range (sv : State) : 0 <= sound_phi sv < 2 * PI.
Proof.
  pose proof PI_RGT_0 as Hpi. unfold sound_phi, angle, pi.
  pose proof (arctan2_range (Im (snd sv)) (Re (snd sv))) as [Hlo Hhi].
  destruct (Rlt_dec (arctan2 (Im (snd sv)) (Re (snd sv))) 0); lra.
Qed.

End ThetaPhiFacts.

(** ** Normalisation and quantisation *)

Section NormaliseFacts.

Lemma true_divide_nonzero (v peak : R) :
  peak <> 0 -> true_divide v peak = Some (v / peak).
Proof.
  intros Hne. unfold true_divide.
  destruct (Req_dec_T peak 0) as [E | _]; [ congruence | reflexivity ].
Qed.

Lemma pcm_top : 2 ^ 15 - 1 = 32767.
Proof. simpl. lra. Qed.

(** One entry, scaled by a positive peak that bounds it, quantises into the
    symmetric 16-bit range. *)
Lemma quantise_entry (v peak : R) :
  Rabs v <= peak -> 0 < peak ->
  exists n, astype_int16 (true_divide (v * (2 ^ 15 - 1)) peak) = Some n
            /\ (-32767 <= n <= 32767)%Z.
Proof.
  intros Hv Hp. rewrite pcm_top, true_divide_nonzero by lra.
  cbn [astype_int16 option_map].
  assert (Hb : - peak <= v <= peak).
  { unfold Rabs in Hv. destruct (Rcase_abs v); lra. }
  assert (Hq : -1 <= v / peak <= 1).
  { split; apply Rmult_le_reg_r with peak; try exact Hp;
      unfold Rdiv; rewrite Rmult_assoc, Rinv_l by lra; lra. }
  assert (Hr : - IZR 32767 <= v * 32767 / peak <= IZR 32767).
  { replace (v * 32767 / peak) with (32767 * (v / peak)) by (field; lra).
    lra. }
  apply Rtrunc_range in Hr.
  eexists. split; [ reflexivity | ].
  rewrite wrap16_small by lia. lia.
Qed.

Lemma normalise_in_range (note : list (R * R)) (peak : R) :
  max_abs note = Some peak -> peak <> 0 ->
  exists audio, normalise note = Some audio /\ Forall frame_in_range audio.
Proof.
  intros E Hne.
  assert (Hpos : 0 < peak) by (pose proof (max_abs_nonneg note peak E); lra).
  unfold normalise, scale. rewrite E. cbn [option_map].
  eexists. split; [ reflexivity | ].
  unfold quantise. rewrite map_map. apply Forall_forall.
  intros fr Hin. apply in_map_iff in Hin. destruct Hin as [row [<- Hin]].
  cbn [fst snd].
  destruct (max_abs_ub note peak row E Hin) as [Hl Hr].
  destruct (quantise_entry (fst row) peak Hl Hpos) as [l [-> Hlr]].
  destruct (quantise_entry (snd row) peak Hr Hpos) as [r [-> Hrr]].
  cbn. split; assumption.
Qed.

(** The conversion of a float to an integer rounds toward zero. *)
Lemma Rtrunc_toward_zero (x : R) : toward_zero x (Rtrunc x).
Proof.
  unfold toward_zero, Rtrunc. destruct (Rle_dec 0 x) as [Hx | Hx].
  - destruct (base_Int_part x) as [Hle Hgt].
    assert (Hn : (0 <= Int_part x)%Z).
    { assert (Hlt : IZR (-1) < IZR (Int_part x)) by lra.
      apply lt_IZR in Hlt. lia. }
    rewrite Z.abs_eq by exact Hn. rewrite Rabs_pos_eq by exact Hx.
    split; [ lra | ]. split; [ intros _; exact Hn | ].
    intros H0. apply le_IZR. lra.
  - assert (Hneg : x < 0) by lra.
    destruct (base_Int_part (- x)) as [Hle Hgt].
    assert (Hn : (0 <= Int_part (- x))%Z).
    { assert (Hlt : IZR (-1) < IZR (Int_part (- x))) by lra.
      apply lt_IZR in Hlt. lia. }
    rewrite Z.abs_opp, Z.abs_eq by exact Hn.
    rewrite Rabs_left by exact Hneg.
    split; [ lra | ]. split; [ intros H0; lra | intros _; lia ].
Qed.

(** One entry bounded by a positive peak: the conversion truncates the
    scaled value toward zero into the symmetric range, and nothing wraps. *)
Lemma quantise_entry_exact (v peak : R) :
  Rabs v <= peak -> 0 < peak ->
  quantised_without_wrap v peak
    (astype_int16 (true_divide (v * (2 ^ 15 - 1)) peak)).
Proof.
  intros Hv Hp. unfold quantised_without_wrap.
  rewrite true_divide_nonzero by lra. cbn [astype_int16 option_map].
  set (x := v * (2 ^ 15 - 1) / peak).
  assert (Hb : - peak <= v <= peak).
  { unfold Rabs in Hv. destruct (Rcase_abs v); lra. }
  assert (Hq : -1 <= v / peak <= 1).
  { split; apply Rmult_le_reg_r with peak; try exact Hp;
      unfold Rdiv; rewrite Rmult_assoc, Rinv_l by lra; lra. }
  assert (Hr : - IZR 32767 <= x <= IZR 32767).
  { unfold x. rewrite pcm_top.
    replace (v * 32767 / peak) with (32767 * (v / peak)) by (field; lra).
    lra. }
  apply Rtrunc_range in Hr.
  assert (Hw : wrap16 (Rtrunc x) = Rtrunc x) by (apply wrap16_small; lia).
  exists (Rtrunc x). split; [ reflexivity | ].
  split; [ apply Rtrunc_toward_zero | ].
  split; [ exact Hr | ]. split; [ exact Hw | ]. now rewrite Hw.
Qed.

Lemma Forall2_map_right {A B : Type} (P : A -> B -> Prop) (F : A -> B)
    (l : list A) :
  (forall a, In a l -> P a (F a)) -> Forall2 P l (map F l).
Proof.
  induction l as [ | a l IH ]; intros H; cbn; constructor.
  - apply H. now left.
  - apply IH. intros b Hb. apply H. now right.
Qed.

Lemma normalise_without_wrap (note : list (R * R)) (peak : R) :
  max_abs note = Some peak -> peak <> 0 ->
  exists audio,
    normalise note = Some audio
    /\ Forall2 (fun row fr =>
                  quantised_without_wrap (fst row) peak (fst fr)
                  /\ quantised_without_wrap (snd row) peak (snd fr))
               note audio.
Proof.
  intros E Hne.
  assert (Hpos : 0 < peak) by (pose proof (max_abs_nonneg note peak E); lra).
  unfold normalise, scale. rewrite E. cbn [option_map].
  eexists. split; [ reflexivity | ].
  unfold quantise. rewrite map_map. apply Forall2_map_right.
  intros row Hin. cbn [fst snd].
  destruct (max_abs_ub note peak row E Hin) as [Hl Hr].
  split; apply quantise_entry_exact; assumption.
Qed.

End NormaliseFacts.

(** ** The peak of a synthesised buffer *)

Section PeakFacts.

Variables theta phi f : R.
Hypothesis f_range : 0 < f < 880.

(** The first right sample is [sin (theta / 2)]. *)
Lemma first_right_sample :
  snd (nth 0 (sound_note theta phi f) (0, 0)) = sin (theta / 2).
Proof.
  rewrite sound_note_nth by lia. cbn [snd INR].
  replace (Rpower 2 (phi / (2 * PI)) * f * (0 / 44100) * 2 * pi + pi / 2)
    with (PI / 2) by (unfold pi; field).
  rewrite sin_PI2. ring.
Qed.

(** The second left sample is [cos (theta / 2)] times a positive sine. *)
Lemma second_left_sample :
  fst (nth 1 (sound_note theta phi f) (0, 0)) =
  cos (theta / 2) * sin (f * (1 / 44100) * 2 * pi)
  /\ 0 < sin (f * (1 / 44100) * 2 * pi).
Proof.
  split.
  - rewrite sound_note_nth by lia. reflexivity.
  - pose proof PI_RGT_0 as Hpi. unfold pi.
    apply sin_gt_0; nra.
Qed.

Lemma cos_sin_not_both_zero (t : R) : ~ (cos t = 0 /\ sin t = 0).
Proof.
  intros [Hc Hs]. pose proof (cos2_sin2 t) as E. rewrite Hc, Hs in E. lra.
Qed.

Lemma nonzero_sample :
  exists i : nat,
    (Z.of_nat i < 22050)%Z /\
    (fst (nth i (sound_note theta phi f) (0, 0)) <> 0
     \/ snd (nth i (sound_note theta phi f) (0, 0)) <> 0).
Proof.
  destruct (Req_dec (sin (theta / 2)) 0) as [Hs | Hs].
  - exists 1%nat. split; [ lia | left ].
    destruct second_left_sample as [-> Hpos].
    assert (Hc : cos (theta / 2) <> 0)
      by (intros Hc; apply (cos_sin_not_both_zero (theta / 2)); auto).
    apply Rmult_integral_contrapositive_currified; lra.
  - exists 0%nat. split; [ lia | right ]. now rewrite first_right_sample.
Qed.

Lemma sound_note_peak_pos :
  exists peak, max_abs (sound_note theta phi f) = Some peak /\ 0 < peak.
Proof.
  destruct (max_abs_some _ (sound_note_nonempty theta phi f)) as [peak E].
  exists peak. split; [ exact E | ].
  destruct nonzero_sample as [i [Hi Hnz]].
  destruct (max_abs_ub _ peak _ E (sound_note_in theta phi f i Hi)) as [Hl Hr].
  destruct Hnz as [Hnz | Hnz]; apply Rabs_pos_lt in Hnz; lra.
Qed.

End PeakFacts.

(** ** Key presses *)

Section KeyFacts.


Lemma statevector_initial : statevector [] = ((1, 0), (0, 0)).
Proof. reflexivity. Qed.

(** The state after the keys [1], [h], [1]. *)
Lemma statevector_1h1 :
  statevector (press_all [] ["1"; "h"; "1"]%string)
  = ((- / sqrt 2, 0), (/ sqrt 2, 0)).
Proof.
  change (press_all [] ["1"; "h"; "1"]%string) with [XGate; HGate; XGate].
  unfold statevector, initial_state. cbn [fold_left].
  unfold applyGate, Mapply, matrix_of, H_matrix, X_matrix;
    cbn [m00 m01 m10 m11];
    unfold Cadd, Cmul, RtoC, C0, C1, Re, Im; cbn [fst snd].
  repeat f_equal; ring.
Qed.

(** The state after the key [z]. *)
Lemma statevector_z :
  statevector (press_all [] ["z"]%string)
  = ((cos (PI / 12), - sin (PI / 12)), (0, 0)).
Proof.
  change (press_all [] ["z"]%string) with [RZGate (pi / 6)].
  unfold statevector, initial_state. cbn [fold_left].
  unfold applyGate, Mapply, matrix_of, RZ_matrix;
    cbn [m00 m01 m10 m11];
    unfold Cadd, Cmul, Cexpi, C0, C1, Re, Im, pi; cbn [fst snd].
  replace (PI / 6 / 2) with (PI / 12) by field.
  rewrite cos_neg, sin_neg.
  repeat f_equal; ring.
Qed.

(** The first amplitude after the keys [h], [z], [x]. *)
Lemma statevector_hzx :
  fst (statevector (press_all [] ["h"; "z"; "x"]%string))
  = (/ sqrt 2, - (2 * sin (PI / 12) * cos (PI / 12) * / sqrt 2)).
Proof.
  change (press_all [] ["h"; "z"; "x"]%string)
    with [HGate; RZGate (pi / 6); RXGate (pi / 6)].
  unfold statevector, initial_state. cbn [fold_left].
  unfold applyGate, Mapply, matrix_of, H_matrix, RZ_matrix, RX_matrix;
    cbn [m00 m01 m10 m11];
    unfold Cadd, Cmul, Cexpi, RtoC, C0, C1, Re, Im, pi; cbn [fst snd].
  replace (PI / 6 / 2) with (PI / 12) by field.
  rewrite cos_neg, sin_neg.
  pose proof (cos2_sin2 (PI / 12)) as E.
  set (co := cos (PI / 12)) in *. set (si := sin (PI / 12)) in *.
  set (r := / sqrt 2). clearbody co si r.
  f_equal; nsatz.
Qed.

Lemma sin_cos_PI12_pos : 0 < sin (PI / 12) /\ 0 < cos (PI / 12).
Proof.
  pose proof PI_RGT_0 as Hpi. split.
  - apply sin_gt_0; lra.
  - apply cos_gt_0; lra.
Qed.

Lemma inv_sqrt2_pos : 0 < / sqrt 2.
Proof.
  apply Rinv_0_lt_compat, sqrt_lt_R0. lra.
Qed.

End KeyFacts.

(** * The claims *)

(** C1, as amended.  For every normalised state vector [(a0, a1)] read by the
    sonifier the polar angle is [2 * Re (arccos a0)], the real part of the
    complex inverse cosine; it equals [2 * acos (Re a0)] exactly when [a0] is
    real or purely imaginary. *)
Theorem theta_is_real_part_of_arccos (sv : State) :
  norm2 sv = 1 ->
  sound_theta sv = 2 * acos (Re (fst sv) / arccos_A (fst sv))
  /\ (sound_theta sv = 2 * acos (Re (fst sv))
      <-> Im (fst sv) = 0 \/ Re (fst sv) = 0).
Proof.
  intros Hn. split; [ reflexivity | ].
  unfold sound_theta. apply arccos_re_real_part_iff.
  unfold norm2 in Hn.
  assert (H1 : 0 <= Cnorm2 (snd sv)) by (unfold Cnorm2; nra).
  lra.
Qed.

Lemma theta_is_real_part_of_arccos_witness :
  norm2 initial_state = 1 /\
  (sound_theta initial_state = 2 * acos (Re (fst initial_state))
   <-> Im (fst initial_state) = 0 \/ Re (fst initial_state) = 0).
Proof.
  assert (Hn : norm2 initial_state = 1) by exact (statevector_norm2 []).
  split; [ exact Hn | ].
  exact (proj2 (theta_is_real_part_of_arccos initial_state Hn)).
Defined.

(** C1 as stated fails: after the key [z], and after the keys [h], [z], [x],
    the first amplitude has nonzero real and imaginary parts and the polar
    angle differs from [2 * acos (Re a0)]. *)
Lemma theta_not_arccos_of_real_part :
  (let sv := statevector (press_all [] ["z"]%string) in
   Im (fst sv) <> 0 /\ sound_theta sv <> 2 * acos (Re (fst sv)))
  /\
  (let sv := statevector (press_all [] ["h"; "z"; "x"]%string) in
   Im (fst sv) <> 0 /\ sound_theta sv <> 2 * acos (Re (fst sv))).
Proof.
  destruct sin_cos_PI12_pos as [Hs Hc]. pose proof inv_sqrt2_pos as Hr.
  split; cbv zeta.
  - assert (Hn := statevector_norm2 (press_all [] ["z"]%string)).
    unfold norm2 in Hn.
    assert (H1 : 0 <= Cnorm2 (snd (statevector (press_all [] ["z"]%string))))
      by (unfold Cnorm2; nra).
    assert (Hle : Cnorm2 (fst (statevector (press_all [] ["z"]%string))) <= 1)
      by lra.
    pose proof (arccos_re_real_part_iff _ Hle) as Hiff.
    unfold sound_theta. rewrite statevector_z in *. cbn [fst snd Re Im] in *.
    split; [ lra | ]. intros E. apply Hiff in E. lra.
  - assert (Hn := statevector_norm2 (press_all [] ["h"; "z"; "x"]%string)).
    unfold norm2 in Hn.
    assert (H1 : 0 <= Cnorm2 (snd (statevector
                                     (press_all [] ["h"; "z"; "x"]%string))))
      by (unfold Cnorm2; nra).
    assert (Hle : Cnorm2 (fst (statevector
                                 (press_all [] ["h"; "z"; "x"]%string))) <= 1)
      by lra.
    pose proof (arccos_re_real_part_iff _ Hle) as Hiff.
    unfold sound_theta. rewrite statevector_hzx in *. cbn [fst snd Re Im] in *.
    assert (Hp : 0 < 2 * sin (PI / 12) * cos (PI / 12) * / sqrt 2)
      by (repeat apply Rmult_lt_0_compat; lra).
    split; [ lra | ]. intros E. apply Hiff in E. lra.
Qed.

(** C3.  Every gate application preserves [|a0|^2 + |a1|^2], and after every
    finite sequence of key presses, starting from the state [(1, 0)], the
    state vector has unit norm. *)
Theorem unit_norm_invariant :
  (forall (s : State) (g : instr), norm2 (applyGate s g) = norm2 s)
  /\ (forall keys : list string,
        norm2 (statevector (press_all [] keys)) = 1).
Proof.
  split.
  - apply applyGate_norm2.
  - intros keys. apply statevector_norm2.
Qed.

(** C4, as amended.  For every state vector reachable from [(1, 0)] the
    polar angle lies in [[0, 2 PI]]; it lies in [[0, PI]] exactly when the
    real part of the first amplitude is not negative. *)
Theorem theta_range (circ : circuit) :
  0 <= sound_theta (statevector circ) <= 2 * PI
  /\ (sound_theta (statevector circ) <= PI
      <-> 0 <= Re (fst (statevector circ))).
Proof.
  split.
  - apply sound_theta_range.
  - apply sound_theta_le_PI_iff.
Qed.

(** C4 as stated fails: after the keys [1], [h], [1] the first amplitude is
    [- 1 / sqrt 2] and the polar angle is [3 PI / 2], outside [[0, PI]]. *)
Lemma theta_exceeds_PI :
  let sv := statevector (press_all [] ["1"; "h"; "1"]%string) in
  sound_theta sv = 3 * PI / 2 /\ ~ (0 <= sound_theta sv <= PI).
Proof.
  cbv zeta. pose proof PI_RGT_0 as Hpi. pose proof inv_sqrt2_pos as Hr.
  assert (E : sound_theta (statevector (press_all [] ["1"; "h"; "1"]%string))
              = 3 * PI / 2).
  { unfold sound_theta, arccos_re. rewrite statevector_1h1. cbn [fst].
    rewrite arccos_A_real; cbn [Re Im fst snd].
    - replace (- / sqrt 2 / 1) with (- / sqrt 2)
        by (unfold Rdiv; rewrite Rinv_1; ring).
      rewrite acos_opp, acos_inv_sqrt2. field.
    - reflexivity.
    - pose proof inv_sqrt2_sq as Hsq. nra. }
  split; [ exact E | ]. rewrite E. lra.
Qed.

(** C5.  For every pair [(theta, phi)] derived from a state vector, [phi]
    lies in [[0, 2 PI)], and for every frequency [f] and every sample index
    [i] in [0 .. 22049], with [t_i = i / 44100], the left sample is
    [cos (theta/2) * sin (2 PI f t_i)] and the right sample is
    [sin (theta/2) * sin (2 PI f t_i * 2^(phi / (2 PI)) + PI/2)]. *)
Theorem waveform_samples (sv : State) (f : R) (i : nat) :
  (Z.of_nat i < 22050)%Z ->
  let theta := sound_theta sv in
  let phi := sound_phi sv in
  let t_i := INR i / 44100 in
  0 <= phi < 2 * PI
  /\ nth i (sound_left theta f) 0 = cos (theta / 2) * sin (2 * PI * f * t_i)
  /\ nth i (sound_right theta phi f) 0
     = sin (theta / 2)
       * sin (2 * PI * f * t_i * Rpower 2 (phi / (2 * PI)) + PI / 2)
  /\ nth i (sound_note theta phi f) (0, 0)
     = (nth i (sound_left theta f) 0, nth i (sound_right theta phi f) 0).
Proof.
  intros Hi theta phi t_i.
  assert (Hlen : (i < length sound_t)%nat)
    by (pose proof sound_t_length; lia).
  assert (Hmap : forall g : R -> R, nth i (map g sound_t) 0 = g t_i).
  { intros g. rewrite nth_indep with (d' := g 0)
      by (rewrite length_map; exact Hlen).
    rewrite (map_nth g), sound_t_nth by exact Hi. reflexivity. }
  assert (Hl : nth i (sound_left theta f) 0
               = cos (theta / 2) * sin (2 * PI * f * t_i)).
  { unfold sound_left. rewrite Hmap. f_equal. f_equal. unfold pi. ring. }
  assert (Hr : nth i (sound_right theta phi f) 0
               = sin (theta / 2)
                 * sin (2 * PI * f * t_i * Rpower 2 (phi / (2 * PI))
                        + PI / 2)).
  { unfold sound_right. rewrite Hmap. f_equal. f_equal. unfold pi. ring. }
  repeat split.
  - apply sound_phi_range.
  - apply sound_phi_range.
  - exact Hl.
  - exact Hr.
  - unfold sound_note, dstack0. apply combine_nth.
    unfold sound_left, sound_right. now rewrite !length_map.
Qed.

Lemma waveform_samples_witness :
  (Z.of_nat 1 < 22050)%Z /\
  nth 1 (sound_left (sound_theta initial_state) 440) 0
  = cos (sound_theta initial_state / 2) * sin (2 * PI * 440 * (INR 1 / 44100)).
Proof.
  assert (Hi : (Z.of_nat 1 < 22050)%Z) by reflexivity.
  split; [ exact Hi | ].
  exact (proj1 (proj2 (waveform_samples initial_state 440 1 Hi))).
Defined.

(** C6.  For every note request, whatever the circuit and the pitch, the
    buffer holds exactly [int (0.5 * 44100) = 22050] stereo pairs, and the
    time of the [i]-th sample is [i / 44100], from 0 included to 0.5 s
    excluded. *)
Theorem buffer_has_22050_pairs (circ : circuit) (note : string) :
  In note note_list ->
  Rtrunc (seconds * fs) = 22050%Z
  /\ (exists audio,
        sound circ note = Some audio /\ Z.of_nat (length audio) = 22050%Z)
  /\ Z.of_nat (length sound_t) = 22050%Z
  /\ (forall i : nat,
        (Z.of_nat i < 22050)%Z ->
        nth i sound_t 0 = INR i / 44100 /\ 0 <= nth i sound_t 0 < seconds).
Proof.
  intros Hin. split; [ exact samples_count | ]. split; [ | split ].
  - destruct (note_list_frequency note Hin) as [f [Ef _]].
    unfold sound, sonify. rewrite Ef.
    destruct (normalise_some _ (sound_note_nonempty
                                  (sound_theta (statevector circ))
                                  (sound_phi (statevector circ)) f))
      as [audio Ea].
    exists audio. split; [ exact Ea | ].
    rewrite (normalise_length _ _ Ea). apply sound_note_length.
  - exact sound_t_length.
  - intros i Hi. rewrite (sound_t_nth i Hi). split; [ reflexivity | ].
    assert (H0 : 0 <= INR i) by apply pos_INR.
    assert (H1 : INR i < 22050).
    { rewrite INR_IZR_INZ. apply IZR_lt. exact Hi. }
    unfold seconds. lra.
Qed.

Lemma buffer_has_22050_pairs_witness :
  In "A"%string note_list /\
  exists audio,
    sound [] "A" = Some audio /\ Z.of_nat (length audio) = 22050%Z.
Proof.
  assert (Hin : In "A"%string note_list) by (cbn; tauto).
  split; [ exact Hin | ].
  exact (proj1 (proj2 (buffer_has_22050_pairs [] "A" Hin))).
Defined.

(** C7.  For every state vector, the rotation about X by [+ PI/6] followed
    by the rotation by [- PI/6] gives the state back, and likewise about Y
    and about Z; so the keys [x] then [X] (and [y], [Y]; [z], [Z]) leave the
    state vector of any circuit unchanged. *)
Theorem rotation_inverse :
  (forall s : State,
     applyGate (applyGate s (RXGate (pi / 6))) (RXGate (- pi / 6)) = s
     /\ applyGate (applyGate s (RYGate (pi / 6))) (RYGate (- pi / 6)) = s
     /\ applyGate (applyGate s (RZGate (pi / 6))) (RZGate (- pi / 6)) = s)
  /\ (forall circ : circuit,
        statevector (press_all circ ["x"; "X"]%string) = statevector circ
        /\ statevector (press_all circ ["y"; "Y"]%string) = statevector circ
        /\ statevector (press_all circ ["z"; "Z"]%string) = statevector circ).
Proof.
  assert (Hneg : - pi / 6 = - (pi / 6)) by field.
  assert (Hs : forall s : State,
     applyGate (applyGate s (RXGate (pi / 6))) (RXGate (- pi / 6)) = s
     /\ applyGate (applyGate s (RYGate (pi / 6))) (RYGate (- pi / 6)) = s
     /\ applyGate (applyGate s (RZGate (pi / 6))) (RZGate (- pi / 6)) = s).
  { intros s. rewrite Hneg. repeat split.
    - apply RX_inverse.
    - apply RY_inverse.
    - apply RZ_inverse. }
  split; [ exact Hs | ].
  intros circ. destruct (Hs (statevector circ)) as [Hx [Hy Hz]].
  repeat split.
  - change (press_all circ ["x"; "X"]%string)
      with ((circ ++ [RXGate (pi / 6)]) ++ [RXGate (- pi / 6)]).
    now rewrite !statevector_app.
  - change (press_all circ ["y"; "Y"]%string)
      with ((circ ++ [RYGate (pi / 6)]) ++ [RYGate (- pi / 6)]).
    now rewrite !statevector_app.
  - change (press_all circ ["z"; "Z"]%string)
      with ((circ ++ [RZGate (pi / 6)]) ++ [RZGate (- pi / 6)]).
    now rewrite !statevector_app.
Qed.

(** C8.  For every state vector, applying the Hadamard gate
    [1/sqrt 2 [[1,1],[1,-1]]] twice gives the state back; so the key [h]
    pressed twice leaves the state vector of any circuit unchanged. *)
Theorem hadamard_involution :
  (forall s : State, applyGate (applyGate s HGate) HGate = s)
  /\ (forall circ : circuit,
        statevector (press_all circ ["h"; "h"]%string) = statevector circ).
Proof.
  split; [ exact H_involution | ].
  intros circ.
  change (press_all circ ["h"; "h"]%string)
    with ((circ ++ [HGate]) ++ [HGate]).
  rewrite !statevector_app. apply H_involution.
Qed.

(** C9.  For every normalised state vector and every note of the
    twelve-pitch table, [cos (theta/2)] and [sin (theta/2)] are not both
    zero, some left or right sample of the buffer before normalisation is
    nonzero, and the peak the normalisation divides by is strictly
    positive. *)
Theorem peak_is_positive (sv : State) (note : string) :
  norm2 sv = 1 ->
  In note note_list ->
  exists f peak,
    note_frequency note = Some f
    /\ max_abs (sound_note (sound_theta sv) (sound_phi sv) f) = Some peak
    /\ 0 < peak
    /\ ~ (cos (sound_theta sv / 2) = 0 /\ sin (sound_theta sv / 2) = 0)
    /\ exists i : nat,
         (Z.of_nat i < 22050)%Z
         /\ (fst (nth i (sound_note (sound_theta sv) (sound_phi sv) f) (0, 0))
             <> 0
             \/ snd (nth i (sound_note (sound_theta sv) (sound_phi sv) f)
                       (0, 0)) <> 0).
Proof.
  intros _ Hin. destruct (note_list_frequency note Hin) as [f [Ef Hf]].
  destruct (sound_note_peak_pos (sound_theta sv) (sound_phi sv) f Hf)
    as [peak [Ep Hpos]].
  exists f, peak. repeat split; try assumption.
  - apply cos_sin_not_both_zero.
  - apply nonzero_sample, Hf.
Qed.

Lemma peak_is_positive_witness :
  norm2 initial_state = 1 /\ In "C"%string note_list /\
  exists f peak,
    note_frequency "C" = Some f
    /\ max_abs (sound_note (sound_theta initial_state)
                  (sound_phi initial_state) f) = Some peak
    /\ 0 < peak.
Proof.
  assert (Hn : norm2 initial_state = 1) by exact (statevector_norm2 []).
  assert (Hin : In "C"%string note_list) by (cbn; tauto).
  split; [ exact Hn | ]. split; [ exact Hin | ].
  destruct (peak_is_positive initial_state "C" Hn Hin)
    as [f [peak [Ef [Ep [Hpos _]]]]].
  exists f, peak. repeat split; assumption.
Defined.

(** C10.  For every note request whose buffer before normalisation has a
    nonzero peak, every sample of the quantised buffer lies in
    [[-32767, 32767]]: each one is the scaled entry truncated toward zero,
    that integer is within the range before the 16-bit conversion wraps
    anything, so no sample overflows or wraps. *)
Theorem quantised_samples_in_range (sv : State) (note : string) (f peak : R) :
  note_frequency note = Some f ->
  max_abs (sound_note (sound_theta sv) (sound_phi sv) f) = Some peak ->
  peak <> 0 ->
  exists audio,
    sonify sv note = Some audio
    /\ Forall frame_in_range audio
    /\ Forall2 (fun row fr =>
                  quantised_without_wrap (fst row) peak (fst fr)
                  /\ quantised_without_wrap (snd row) peak (snd fr))
               (sound_note (sound_theta sv) (sound_phi sv) f) audio.
Proof.
  intros Ef Ep Hne. unfold sonify. rewrite Ef.
  destruct (normalise_in_range _ peak Ep Hne) as [audio [Ea Hr]].
  destruct (normalise_without_wrap _ peak Ep Hne) as [audio' [Ea' Hw]].
  assert (E : audio' = audio) by congruence. subst audio'.
  exists audio. repeat split; assumption.
Qed.

Lemma quantised_samples_in_range_witness :
  exists peak audio,
    max_abs (sound_note (sound_theta initial_state)
               (sound_phi initial_state) (440 * Rpower 2 (0 / 12)))
    = Some peak
    /\ peak <> 0
    /\ sonify initial_state "A" = Some audio
    /\ Forall frame_in_range audio
    /\ Forall2 (fun row fr =>
                  quantised_without_wrap (fst row) peak (fst fr)
                  /\ quantised_without_wrap (snd row) peak (snd fr))
               (sound_note (sound_theta initial_state)
                  (sound_phi initial_state) (440 * Rpower 2 (0 / 12)))
               audio.
Proof.
  assert (Hf : 0 < 440 * Rpower 2 (0 / 12) < 880)
    by (apply pitch_range; lra).
  destruct (sound_note_peak_pos (sound_theta initial_state)
              (sound_phi initial_state) _ Hf) as [peak [Ep Hpos]].
  assert (Hne : peak <> 0) by (apply Rgt_not_eq, Hpos).
  destruct (quantised_samples_in_range initial_state "A"
              (440 * Rpower 2 (0 / 12)) peak eq_refl Ep Hne)
    as [audio [Ea [Hr Hw]]].
  exists peak, audio. repeat split; assumption.
Defined.

(** * Further properties of the key handler and of the sonifier *)

(** ** Helper lemmas on keys *)

Section HandlerFacts.

Lemma eqb_false_of_not_in (char k : string) (l : list string) :
  ~ In char l -> In k l -> (char =? k)%string = false.
Proof.
  intros Hn Hk. apply String.eqb_neq. intros ->. exact (Hn Hk).
Qed.

Lemma key_press_gates_other (circ : circuit) (char : string) :
  ~ In char gate_keys -> key_press_gates circ char = circ.
Proof.
  intros Hn. unfold key_press_gates.
  repeat match goal with
         | |- context [(char =? ?k)%string] =>
             rewrite (eqb_false_of_not_in char k gate_keys Hn)
               by (cbn; tauto)
         end.
  reflexivity.
Qed.

Lemma key_press_sounds_other (circ : circuit) (char : string) :
  ~ In char entry_list -> key_press_sounds circ char = [].
Proof.
  intros Hn. unfold key_press_sounds.
  cbn [seq flat_map nth entry_list note_list].
  repeat match goal with
         | |- context [(char =? ?k)%string] =>
             rewrite (eqb_false_of_not_in char k entry_list Hn)
               by (cbn; tauto)
         end.
  reflexivity.
Qed.

Lemma gate_key_not_note_key (char : string) :
  In char gate_keys -> ~ In char entry_list.
Proof.
  unfold gate_keys. cbn [In]. intros Hin.
  repeat (destruct Hin as [<- | Hin];
          [ cbn; intros H; repeat (destruct H as [H | H];
                                   [ discriminate H | ]); exact H | ]).
  destruct Hin.
Qed.

Lemma is_gate_key_spec (char : string) :
  is_gate_key char = true <-> In char gate_keys.
Proof.
  unfold is_gate_key. rewrite existsb_exists. split.
  - intros [k [Hk E]]. apply String.eqb_eq in E. now subst.
  - intros Hin. exists char. split; [ exact Hin | apply String.eqb_refl ].
Qed.

Lemma key_press_gates_gate (circ : circuit) (char : string) :
  In char gate_keys -> exists g, key_press_gates circ char = circ ++ [g].
Proof.
  unfold gate_keys. cbn [In]. intros Hin.
  repeat (destruct Hin as [<- | Hin]; [ eexists; reflexivity | ]).
  destruct Hin.
Qed.

End HandlerFacts.

Section SessionFacts.

Lemma key_press_text_other (text char : string) :
  ~ In char entry_list -> key_press_text text char = text.
Proof.
  intros Hn. unfold key_press_text.
  cbn [seq fold_left nth entry_list note_list].
  repeat match goal with
         | |- context [(char =? ?k)%string] =>
             rewrite (eqb_false_of_not_in char k entry_list Hn)
               by (cbn; tauto)
         end.
  reflexivity.
Qed.

Lemma key_press_text_note (text : string) (i : nat) :
  (i < 12)%nat ->
  key_press_text text (nth i entry_list EmptyString)
  = nth i note_list EmptyString.
Proof.
  intros Hi.
  do 12 (destruct i as [ | i ]; [ reflexivity | ]). lia.
Qed.

Lemma note_key_index (char : string) :
  In char entry_list ->
  exists i : nat, (i < 12)%nat /\ char = nth i entry_list EmptyString.
Proof.
  intros Hin. destruct (In_nth _ _ EmptyString Hin) as [i [Hi E]].
  exists i. split; [ exact Hi | now rewrite E ].
Qed.

Lemma note_list_nth_in (i : nat) :
  (i < 12)%nat -> In (nth i note_list EmptyString) note_list.
Proof.
  intros Hi. apply nth_In. exact Hi.
Qed.


Lemma key_press_text_in (text char : string) :
  In text note_list -> In (key_press_text text char) note_list.
Proof.
  intros Ht. destruct (in_dec string_dec char entry_list) as [Hin | Hn].
  - destruct (note_key_index char Hin) as [i [Hi ->]].
    rewrite key_press_text_note by exact Hi. now apply note_list_nth_in.
  - now rewrite key_press_text_other.
Qed.

Lemma key_press_gates_length (circ : circuit) (char : string) :
  length (key_press_gates circ char)
  = (length circ + if is_gate_key char then 1 else 0)%nat.
Proof.
  destruct (is_gate_key char) eqn:E.
  - apply is_gate_key_spec in E.
    destruct (key_press_gates_gate circ char E) as [g ->].
    now rewrite length_app.
  - rewrite key_press_gates_other; [ lia | ].
    intros Hin. apply is_gate_key_spec in Hin. congruence.
Qed.

End SessionFacts.

(** ** Properties of [key_press] *)

(** X1.  A key that is neither a gate key nor a note key changes nothing:
    no gate is appended, nothing is played and the note label stays. *)
Theorem unrecognised_key_ignored (circ : circuit) (text char : string) :
  ~ In char gate_keys ->
  ~ In char entry_list ->
  key_press circ char = (circ, []) /\ key_press_text text char = text.
Proof.
  intros Hg He. unfold key_press.
  rewrite key_press_gates_other by exact Hg.
  rewrite key_press_sounds_other by exact He.
  split; [ reflexivity | now apply key_press_text_other ].
Qed.

Lemma unrecognised_key_ignored_witness :
  key_press [HGate] "q" = ([HGate], [])
  /\ key_press_text "A" "q" = "A"%string.
Proof.
  apply (unrecognised_key_ignored [HGate] "A" "q").
  - cbn. intros H. repeat (destruct H as [H | H]; [ discriminate H | ]).
    exact H.
  - cbn. intros H. repeat (destruct H as [H | H]; [ discriminate H | ]).
    exact H.
Defined.

(** X2.  A gate key appends exactly one gate at the end of the circuit,
    keeps the gates already there, plays nothing and leaves the note
    label. *)
Theorem gate_key_appends_one_gate (circ : circuit) (text char : string) :
  In char gate_keys ->
  exists g : instr,
    key_press circ char = (circ ++ [g], [])
    /\ key_press_text text char = text.
Proof.
  intros Hin. pose proof (gate_key_not_note_key char Hin) as Hn.
  destruct (key_press_gates_gate circ char Hin) as [g Eg].
  exists g. unfold key_press. rewrite Eg.
  rewrite key_press_sounds_other by exact Hn.
  split; [ reflexivity | now apply key_press_text_other ].
Qed.

Lemma gate_key_appends_one_gate_witness :
  exists g : instr,
    key_press [XGate] "h" = ([XGate] ++ [g], [])
    /\ key_press_text "C" "h" = "C"%string.
Proof.
  apply (gate_key_appends_one_gate [XGate] "C" "h").
  cbn. tauto.
Defined.



(** X4.  Over a whole session the circuit only grows: after any sequence of
    keys it holds the gates it had, plus one gate for every gate key
    pressed. *)
Theorem circuit_grows_by_gate_keys (circ : circuit) (keys : list string) :
  length (press_all circ keys)
  = (length circ + length (filter is_gate_key keys))%nat
  /\ exists gates, press_all circ keys = circ ++ gates.
Proof.
  revert circ. induction keys as [ | char keys IH ]; intros circ.
  - cbn. split; [ lia | exists []; now rewrite app_nil_r ].
  - change (press_all circ (char :: keys))
      with (press_all (key_press_gates circ char) keys).
    cbn [filter].
    destruct (IH (key_press_gates circ char)) as [Hlen [gates Hg]].
    rewrite Hlen, Hg, key_press_gates_length. split.
    + destruct (is_gate_key char); cbn [length]; lia.
    + destruct (is_gate_key char) eqn:E.
      * apply is_gate_key_spec in E.
        destruct (key_press_gates_gate circ char E) as [g ->].
        exists (g :: gates). now rewrite <- app_assoc.
      * rewrite key_press_gates_other; [ now exists gates | ].
        intros Hin. apply is_gate_key_spec in Hin. congruence.
Qed.

(** X5.  The note label always names a note of [note_list]: it starts as
    the first one and every key press keeps it in the list. *)
Theorem note_label_in_note_list (keys : list string) :
  In (text_after initial_text keys) note_list.
Proof.
  unfold text_after.
  assert (H0 : In initial_text note_list) by (cbn; tauto).
  revert H0. generalize initial_text.
  induction keys as [ | char keys IH ]; intros text Ht; cbn [fold_left].
  - exact Ht.
  - apply IH. now apply key_press_text_in.
Qed.

(** ** Properties of the pitch table *)

Section PitchFacts.

Lemma note_names_frequency (note : string) :
  In note note_names ->
  exists f, note_frequency note = Some f /\ 0 < f < 880.
Proof.
  unfold note_names. cbn [In]. intros Hin.
  repeat (destruct Hin as [<- | Hin];
          [ eexists; split; [ reflexivity | apply pitch_range; lra ] | ]).
  destruct Hin.
Qed.

Lemma note_frequency_unknown (note : string) :
  ~ In note note_names -> note_frequency note = None.
Proof.
  intros Hn. unfold note_frequency.
  repeat match goal with
         | |- context [(note =? ?k)%string] =>
             rewrite (eqb_false_of_not_in note k note_names Hn)
               by (cbn; tauto)
         end.
  reflexivity.
Qed.

Lemma sonify_some (sv : State) (note : string) (f : R) :
  note_frequency note = Some f ->
  exists audio, sonify sv note = Some audio.
Proof.
  intros Ef. unfold sonify. rewrite Ef.
  apply normalise_some, sound_note_nonempty.
Qed.

Lemma note_list_closed_form (i : nat) :
  (i < 12)%nat ->
  note_frequency (nth i note_list EmptyString)
  = Some (440 * Rpower 2 ((INR i - 9) / 12)).
Proof.
  intros Hi.
  assert (Hc : forall (note : string) (e : R) (n : nat),
             note_frequency note = Some (440 * Rpower 2 (e / 12)) ->
             e = INR n - 9 ->
             note_frequency note = Some (440 * Rpower 2 ((INR n - 9) / 12))).
  { intros note e n E ->. exact E. }
  do 12 (destruct i as [ | i ];
         [ eapply Hc; [ reflexivity | simpl; lra ] | ]).
  lia.
Qed.

Lemma bend_range (phi : R) :
  0 <= phi < 2 * PI -> 1 <= Rpower 2 (phi / (2 * PI)) < 2.
Proof.
  intros [H0 H1]. pose proof PI_RGT_0 as Hpi.
  assert (Hq : 0 <= phi / (2 * PI) < 1).
  { split.
    - apply Rmult_le_pos; [ exact H0 | ].
      apply Rlt_le, Rinv_0_lt_compat. lra.
    - apply Rmult_lt_reg_r with (2 * PI); [ lra | ].
      unfold Rdiv. rewrite Rmult_assoc, Rinv_l by lra. lra. }
  split.
  - rewrite <- (Rpower_O 2) by lra. apply Rle_Rpower; lra.
  - apply Rlt_le_trans with (Rpower 2 1).
    + apply Rpower_lt; lra.
    + rewrite Rpower_1 by lra. lra.
Qed.

End PitchFacts.

(** X6.  [sound] produces a buffer exactly for the seventeen spellings its
    [if] chain knows (the twelve of [note_list] and the five flats); for any
    other note name [f] stays unbound and the call fails, whatever the
    circuit. *)
Theorem sound_fails_exactly_on_unknown_names (circ : circuit) (note : string) :
  sound circ note = None <-> ~ In note note_names.
Proof.
  split.
  - intros E Hin. destruct (note_names_frequency note Hin) as [f [Ef _]].
    destruct (sonify_some (statevector circ) note f Ef) as [audio Ea].
    unfold sound in E. congruence.
  - intros Hn. unfold sound, sonify.
    now rewrite (note_frequency_unknown note Hn).
Qed.

(** X7.  The frequency bound to the [i]-th note of [note_list] is
    [440 * 2^((i - 9) / 12)]: equal temperament around A = 440 Hz, each note
    a factor [2^(1/12)] above the one before it. *)
Theorem note_list_is_equal_tempered (i : nat) :
  (i < 12)%nat ->
  note_frequency (nth i note_list EmptyString)
  = Some (440 * Rpower 2 ((INR i - 9) / 12))
  /\ ((S i < 12)%nat ->
      exists f g,
        note_frequency (nth i note_list EmptyString) = Some f
        /\ note_frequency (nth (S i) note_list EmptyString) = Some g
        /\ g = f * Rpower 2 (1 / 12) /\ f < g).
Proof.
  intros Hi. split; [ now apply note_list_closed_form | ].
  intros Hs. do 2 eexists.
  split; [ now apply note_list_closed_form | ].
  split; [ now apply note_list_closed_form | ].
  assert (E : 440 * Rpower 2 ((INR (S i) - 9) / 12)
              = 440 * Rpower 2 ((INR i - 9) / 12) * Rpower 2 (1 / 12)).
  { rewrite Rmult_assoc, <- Rpower_plus. f_equal. f_equal.
    rewrite S_INR. field. }
  split; [ exact E | ]. rewrite E.
  assert (Hp : 0 < 440 * Rpower 2 ((INR i - 9) / 12)).
  { apply Rmult_lt_0_compat; [ lra | unfold Rpower; apply exp_pos ]. }
  assert (H1 : 1 < Rpower 2 (1 / 12)).
  { apply Rle_lt_trans with (Rpower 2 0).
    - rewrite Rpower_O by lra. lra.
    - apply Rpower_lt; lra. }
  nra.
Qed.

Lemma note_list_is_equal_tempered_witness :
  note_frequency (nth 9 note_list EmptyString)
  = Some (440 * Rpower 2 ((INR 9 - 9) / 12)).
Proof.
  assert (Hi : (9 < 12)%nat) by lia.
  exact (proj1 (note_list_is_equal_tempered 9 Hi)).
Defined.

(** X8.  The right channel is bent upwards by at most an octave: its
    frequency factor [2^(phi / (2 PI))] lies in [[1, 2]], so for every note
    [sound] accepts the right-channel frequency lies between [f] and [2 f]
    and both channels stay below half the sample rate. *)
Theorem right_channel_within_octave (sv : State) (note : string) (f : R) :
  note_frequency note = Some f ->
  1 <= Rpower 2 (sound_phi sv / (2 * PI)) <= 2
  /\ f <= Rpower 2 (sound_phi sv / (2 * PI)) * f <= 2 * f
  /\ f < fs / 2
  /\ Rpower 2 (sound_phi sv / (2 * PI)) * f < fs / 2.
Proof.
  intros Ef. pose proof (note_frequency_range note f Ef) as Hf.
  pose proof (bend_range _ (sound_phi_range sv)) as Hb.
  unfold fs. repeat split; nra.
Qed.

Lemma right_channel_within_octave_witness :
  1 <= Rpower 2 (sound_phi initial_state / (2 * PI)) <= 2.
Proof.
  assert (Ef : note_frequency "A" = Some (440 * Rpower 2 (0 / 12)))
    by reflexivity.
  exact (proj1 (right_channel_within_octave initial_state "A" _ Ef)).
Defined.

(** ** Properties of the two angles *)

Section GainFacts.

Lemma half_theta (sv : State) :
  sound_theta sv / 2 = acos (Re (fst sv) / arccos_A (fst sv)).
Proof.
  unfold sound_theta, arccos_re. field.
Qed.

Lemma arccos_A_opp (a0 : C) : arccos_A (Copp a0) = arccos_A a0.
Proof.
  unfold arccos_A, Cabs.
  replace (Cnorm2 (Cadd (Copp a0) C1)) with (Cnorm2 (Cadd a0 (Copp C1)))
    by (unfold Cnorm2, Cadd, Copp, C1, Re, Im; cbn [fst snd]; ring).
  replace (Cnorm2 (Cadd (Copp a0) (Copp C1))) with (Cnorm2 (Cadd a0 C1))
    by (unfold Cnorm2, Cadd, Copp, C1, Re, Im; cbn [fst snd]; ring).
  lra.
Qed.

Lemma atan_zero_inv (t : R) : atan t = 0 -> t = 0.
Proof.
  intros E. destruct (Rtotal_order t 0) as [Hlt | [Heq | Hgt]].
  - apply atan_increasing in Hlt. rewrite atan_0 in Hlt. lra.
  - exact Heq.
  - apply atan_increasing in Hgt. rewrite atan_0 in Hgt. lra.
Qed.

Lemma arctan2_zero_iff (v u : R) :
  arctan2 v u = 0 <-> v = 0 /\ 0 <= u.
Proof.
  pose proof PI_RGT_0 as Hpi. unfold arctan2.
  pose proof (atan_bound (v / u)) as [Hlo Hhi].
  destruct (Rlt_dec 0 u) as [Hu | Hu].
  - split.
    + intros E. apply atan_zero_inv in E. split; [ | lra ].
      replace v with (v / u * u) by (field; lra). rewrite E. ring.
    + intros [-> _]. unfold Rdiv. rewrite Rmult_0_l. apply atan_0.
  - destruct (Rlt_dec u 0) as [Hu' | Hu'].
    + destruct (Rle_dec 0 v); split; intros H; lra.
    + destruct (Rlt_dec 0 v); [ split; intros H; lra | ].
      destruct (Rlt_dec v 0); split; intros H; lra.
Qed.

End GainFacts.

(** X9.  For a normalised state vector whose first amplitude is real, the
    gain of the left channel is that amplitude and the gain of the right
    channel is the modulus of the second amplitude; for every state vector
    the gain of the right channel is not negative. *)
Theorem gains_encode_amplitudes (sv : State) :
  norm2 sv = 1 ->
  Im (fst sv) = 0 ->
  cos (sound_theta sv / 2) = Re (fst sv)
  /\ sin (sound_theta sv / 2) = Cabs (snd sv)
  /\ (forall s : State, 0 <= sin (sound_theta s / 2)).
Proof.
  intros Hn Hy. unfold norm2 in Hn.
  assert (Hc : Cnorm2 (fst sv) = Re (fst sv) * Re (fst sv))
    by (unfold Cnorm2; rewrite Hy; ring).
  assert (H1 : 0 <= Cnorm2 (snd sv)) by (unfold Cnorm2; nra).
  assert (Hx : -1 <= Re (fst sv) <= 1) by nra.
  rewrite half_theta, (arccos_A_real _ Hy Hx).
  replace (Re (fst sv) / 1) with (Re (fst sv)) by field.
  split; [ now apply cos_acos | ]. split.
  - rewrite sin_acos by exact Hx. unfold Cabs. f_equal.
    unfold Rsqr. lra.
  - intros s. rewrite half_theta.
    pose proof (acos_bound (Re (fst s) / arccos_A (fst s))) as [Hlo Hhi].
    now apply sin_ge_0.
Qed.

Lemma gains_encode_amplitudes_witness :
  cos (sound_theta initial_state / 2) = Re (fst initial_state)
  /\ sin (sound_theta initial_state / 2) = Cabs (snd initial_state).
Proof.
  assert (Hn : norm2 initial_state = 1) by exact (statevector_norm2 []).
  assert (Hy : Im (fst initial_state) = 0) by reflexivity.
  destruct (gains_encode_amplitudes initial_state Hn Hy) as [Hc [Hs _]].
  split; [ exact Hc | exact Hs ].
Defined.

(** X10.  The polar angle depends on the global phase: negating both
    amplitudes turns [theta] into [2 PI - theta], which negates the gain of
    the left channel and keeps the gain of the right channel. *)
Theorem theta_of_negated_state (sv : State) :
  sound_theta (negate sv) = 2 * PI - sound_theta sv
  /\ cos (sound_theta (negate sv) / 2) = - cos (sound_theta sv / 2)
  /\ sin (sound_theta (negate sv) / 2) = sin (sound_theta sv / 2).
Proof.
  assert (E : sound_theta (negate sv) = 2 * PI - sound_theta sv).
  { unfold sound_theta, arccos_re, negate. cbn [fst].
    rewrite arccos_A_opp.
    replace (Re (Copp (fst sv)) / arccos_A (fst sv))
      with (- (Re (fst sv) / arccos_A (fst sv)))
      by (unfold Copp, Re; cbn [fst]; unfold Rdiv; ring).
    rewrite acos_opp. ring. }
  split; [ exact E | ]. rewrite E.
  replace ((2 * PI - sound_theta sv) / 2) with (PI - sound_theta sv / 2)
    by field.
  split.
  - rewrite cos_minus, cos_PI, sin_PI. ring.
  - rewrite sin_minus, cos_PI, sin_PI. ring.
Qed.

(** X11.  The azimuthal phase is zero exactly when the second amplitude is a
    real number that is not negative (zero included); the right channel then
    has the frequency of the left one. *)
Theorem phi_zero_iff (sv : State) :
  (sound_phi sv = 0 <-> Im (snd sv) = 0 /\ 0 <= Re (snd sv))
  /\ (sound_phi sv = 0 -> Rpower 2 (sound_phi sv / (2 * PI)) = 1).
Proof.
  pose proof PI_RGT_0 as Hpi. split.
  - unfold sound_phi, angle, pi.
    pose proof (arctan2_range (Im (snd sv)) (Re (snd sv))) as [Hlo Hhi].
    pose proof (arctan2_zero_iff (Im (snd sv)) (Re (snd sv))) as Hz.
    destruct (Rlt_dec (arctan2 (Im (snd sv)) (Re (snd sv))) 0) as [Hneg | Hnn].
    + split.
      * intros E. lra.
      * intros H. apply Hz in H. lra.
    + exact Hz.
  - intros ->. unfold Rdiv. rewrite Rmult_0_l. apply Rpower_O. lra.
Qed.

(** ** How the gate keys compose *)

Section CompositionFacts.

Ltac gate_unfold :=
  unfold applyGate, Mapply, matrix_of, negate,
    H_matrix, X_matrix, Y_matrix, Z_matrix, RX_matrix, RY_matrix, RZ_matrix;
  cbn [m00 m01 m10 m11];
  unfold Cadd, Cmul, Copp, Cexpi, RtoC, C0, C1, Ci, Re, Im;
  cbn [fst snd].

Lemma X_involution (s : State) : applyGate (applyGate s XGate) XGate = s.
Proof.
  destruct s as [[a b] [c d]]. gate_unfold. f_equal; f_equal; ring.
Qed.

Lemma Y_involution (s : State) : applyGate (applyGate s YGate) YGate = s.
Proof.
  destruct s as [[a b] [c d]]. gate_unfold. f_equal; f_equal; ring.
Qed.

Lemma Z_involution (s : State) : applyGate (applyGate s ZGate) ZGate = s.
Proof.
  destruct s as [[a b] [c d]]. gate_unfold. f_equal; f_equal; ring.
Qed.

Lemma half_sum (a b : R) : (a + b) / 2 = a / 2 + b / 2.
Proof. field. Qed.

Lemma RX_add (a b : R) (s : State) :
  applyGate (applyGate s (RXGate a)) (RXGate b) = applyGate s (RXGate (a + b)).
Proof.
  destruct s as [[p q] [u v]]. gate_unfold.
  rewrite half_sum, cos_plus, sin_plus. f_equal; f_equal; ring.
Qed.

Lemma RY_add (a b : R) (s : State) :
  applyGate (applyGate s (RYGate a)) (RYGate b) = applyGate s (RYGate (a + b)).
Proof.
  destruct s as [[p q] [u v]]. gate_unfold.
  rewrite half_sum, cos_plus, sin_plus. f_equal; f_equal; ring.
Qed.

Lemma RZ_add (a b : R) (s : State) :
  applyGate (applyGate s (RZGate a)) (RZGate b) = applyGate s (RZGate (a + b)).
Proof.
  destruct s as [[p q] [u v]]. gate_unfold.
  rewrite half_sum, !cos_neg, !sin_neg, cos_plus, sin_plus.
  f_equal; f_equal; ring.
Qed.

Lemma rotation_by_zero (s : State) :
  applyGate s (RXGate 0) = s
  /\ applyGate s (RYGate 0) = s
  /\ applyGate s (RZGate 0) = s.
Proof.
  destruct s as [[p q] [u v]]. gate_unfold.
  replace (0 / 2) with 0 by field.
  rewrite Ropp_0, cos_0, sin_0.
  repeat split; f_equal; f_equal; ring.
Qed.

(** A turn by [2 PI], in either direction, negates the state vector. *)
Lemma rotation_full_turn (t : R) (s : State) :
  t = 2 * PI \/ t = - (2 * PI) ->
  applyGate s (RXGate t) = negate s
  /\ applyGate s (RYGate t) = negate s
  /\ applyGate s (RZGate t) = negate s.
Proof.
  destruct s as [[p q] [u v]]. intros [-> | ->]; gate_unfold.
  - replace (2 * PI / 2) with PI by field.
    rewrite cos_neg, sin_neg, cos_PI, sin_PI.
    repeat split; f_equal; f_equal; ring.
  - replace (- (2 * PI) / 2) with (- PI) by field.
    rewrite Ropp_involutive, cos_neg, sin_neg, cos_PI, sin_PI.
    repeat split; f_equal; f_equal; ring.
Qed.

Section Repeated.

Variable rot : R -> instr.
Hypothesis rot_add : forall (a b : R) (s : State),
  applyGate (applyGate s (rot a)) (rot b) = applyGate s (rot (a + b)).
Hypothesis rot_zero : forall s : State, applyGate s (rot 0) = s.

Lemma rot_iter (n : nat) (t : R) (s : State) :
  Nat.iter n (fun s' => applyGate s' (rot t)) s
  = applyGate s (rot (INR n * t)).
Proof.
  induction n as [ | n IH ].
  - rewrite Rmult_0_l. symmetry. apply rot_zero.
  - rewrite Nat.iter_succ, IH, rot_add, S_INR. f_equal. f_equal. ring.
Qed.

End Repeated.

Lemma statevector_iter_app (n : nat) (g : instr) (circ : circuit) :
  statevector (Nat.iter n (fun c => c ++ [g]) circ)
  = Nat.iter n (fun s => applyGate s g) (statevector circ).
Proof.
  induction n as [ | n IH ].
  - reflexivity.
  - now rewrite !Nat.iter_succ, statevector_app, IH.
Qed.

Lemma twelve_sixths (t : R) :
  t = pi / 6 \/ t = - pi / 6 ->
  INR 12 * t = 2 * PI \/ INR 12 * t = - (2 * PI).
Proof.
  unfold pi. intros [-> | ->]; [ left | right ]; simpl; field.
Qed.

Lemma twelve_presses (g : R -> instr) (t : R) (circ : circuit) :
  (forall (a b : R) (s : State),
     applyGate (applyGate s (g a)) (g b) = applyGate s (g (a + b))) ->
  (forall s : State, applyGate s (g 0) = s) ->
  (forall (u : R) (s : State),
     u = 2 * PI \/ u = - (2 * PI) -> applyGate s (g u) = negate s) ->
  t = pi / 6 \/ t = - pi / 6 ->
  statevector (Nat.iter 12 (fun c => c ++ [g t]) circ)
  = negate (statevector circ).
Proof.
  intros Hadd Hzero Hturn Ht.
  rewrite statevector_iter_app, (rot_iter g Hadd Hzero).
  apply Hturn, twelve_sixths, Ht.
Qed.

End CompositionFacts.

(** X12.  Each Pauli key pressed twice gives the state vector back: the
    keys [1], [2] and [3] are involutions on the state of any circuit. *)
Theorem pauli_keys_are_involutions (circ : circuit) :
  statevector (press_all circ ["1"; "1"]%string) = statevector circ
  /\ statevector (press_all circ ["2"; "2"]%string) = statevector circ
  /\ statevector (press_all circ ["3"; "3"]%string) = statevector circ.
Proof.
  repeat split.
  - change (press_all circ ["1"; "1"]%string)
      with ((circ ++ [XGate]) ++ [XGate]).
    rewrite !statevector_app. apply X_involution.
  - change (press_all circ ["2"; "2"]%string)
      with ((circ ++ [YGate]) ++ [YGate]).
    rewrite !statevector_app. apply Y_involution.
  - change (press_all circ ["3"; "3"]%string)
      with ((circ ++ [ZGate]) ++ [ZGate]).
    rewrite !statevector_app. apply Z_involution.
Qed.

(** X13.  Twelve presses of one rotation key make a full turn, and the full
    turn does not give the state vector back: it gives it negated.  This
    holds for the keys [x], [y], [z] and for [X], [Y], [Z]. *)
Theorem twelve_presses_negate_the_state (circ : circuit) :
  statevector (press_all circ (repeat "x"%string 12))
  = negate (statevector circ)
  /\ statevector (press_all circ (repeat "y"%string 12))
     = negate (statevector circ)
  /\ statevector (press_all circ (repeat "z"%string 12))
     = negate (statevector circ)
  /\ statevector (press_all circ (repeat "X"%string 12))
     = negate (statevector circ)
  /\ statevector (press_all circ (repeat "Y"%string 12))
     = negate (statevector circ)
  /\ statevector (press_all circ (repeat "Z"%string 12))
     = negate (statevector circ).
Proof.
  assert (HX : forall (u : R) (s : State),
             u = 2 * PI \/ u = - (2 * PI) ->
             applyGate s (RXGate u) = negate s)
    by (intros u s Hu; apply (rotation_full_turn u s Hu)).
  assert (HY : forall (u : R) (s : State),
             u = 2 * PI \/ u = - (2 * PI) ->
             applyGate s (RYGate u) = negate s)
    by (intros u s Hu; apply (rotation_full_turn u s Hu)).
  assert (HZ : forall (u : R) (s : State),
             u = 2 * PI \/ u = - (2 * PI) ->
             applyGate s (RZGate u) = negate s)
    by (intros u s Hu; apply (rotation_full_turn u s Hu)).
  assert (H0X : forall s, applyGate s (RXGate 0) = s)
    by (intros s; apply (rotation_by_zero s)).
  assert (H0Y : forall s, applyGate s (RYGate 0) = s)
    by (intros s; apply (rotation_by_zero s)).
  assert (H0Z : forall s, applyGate s (RZGate 0) = s)
    by (intros s; apply (rotation_by_zero s)).
  repeat split.
  - apply (twelve_presses RXGate (pi / 6) circ RX_add H0X HX). now left.
  - apply (twelve_presses RYGate (pi / 6) circ RY_add H0Y HY). now left.
  - apply (twelve_presses RZGate (pi / 6) circ RZ_add H0Z HZ). now left.
  - apply (twelve_presses RXGate (- pi / 6) circ RX_add H0X HX). now right.
  - apply (twelve_presses RYGate (- pi / 6) circ RY_add H0Y HY). now right.
  - apply (twelve_presses RZGate (- pi / 6) circ RZ_add H0Z HZ). now right.
Qed.

(** ** Properties of the normalisation *)

Section ScaleFacts.

Lemma quantise_peak (v peak : R) :
  peak <> 0 -> v = peak \/ v = - peak ->
  astype_int16 (true_divide (v * (2 ^ 15 - 1)) peak) = Some 32767%Z
  \/ astype_int16 (true_divide (v * (2 ^ 15 - 1)) peak) = Some (-32767)%Z.
Proof.
  intros Hne Hv. rewrite pcm_top, true_divide_nonzero by exact Hne.
  cbn [astype_int16 option_map]. destruct Hv as [-> | ->]; [ left | right ].
  - replace (peak * 32767 / peak) with (IZR 32767) by (field; exact Hne).
    rewrite Rtrunc_IZR. reflexivity.
  - replace (- peak * 32767 / peak) with (IZR (-32767))
      by (field; exact Hne).
    rewrite Rtrunc_IZR. reflexivity.
Qed.

Lemma quantise_zero (peak : R) :
  peak <> 0 ->
  astype_int16 (true_divide (0 * (2 ^ 15 - 1)) peak) = Some 0%Z.
Proof.
  intros Hne. rewrite true_divide_nonzero by exact Hne.
  cbn [astype_int16 option_map].
  replace (0 * (2 ^ 15 - 1) / peak) with (IZR 0)
    by (unfold Rdiv; ring).
  rewrite Rtrunc_IZR. reflexivity.
Qed.

(** The peak is the magnitude of some sample. *)
Lemma max_abs_attained (note : list (R * R)) (peak : R) :
  max_abs note = Some peak ->
  exists row, In row note
              /\ (Rabs (fst row) = peak \/ Rabs (snd row) = peak).
Proof.
  intros E. apply amax_in in E. apply in_map_iff in E.
  destruct E as [v [Ev Hin]]. unfold ravel in Hin.
  apply in_flat_map in Hin. destruct Hin as [row [Hrow Hv]].
  exists row. split; [ exact Hrow | ].
  cbn in Hv. destruct Hv as [<- | [<- | []]]; auto.
Qed.

Lemma Rabs_eq_cases (v peak : R) : Rabs v = peak -> v = peak \/ v = - peak.
Proof.
  unfold Rabs. destruct (Rcase_abs v); intros <-; [ right | left ]; lra.
Qed.

Lemma normalise_full_scale (note : list (R * R)) (peak : R) :
  max_abs note = Some peak -> peak <> 0 ->
  exists audio, normalise note = Some audio /\ Exists near_full_scale audio.
Proof.
  intros E Hne. destruct (max_abs_attained note peak E) as [row [Hin Hrow]].
  unfold normalise, scale. rewrite E. cbn [option_map].
  eexists. split; [ reflexivity | ].
  unfold quantise. rewrite map_map. apply Exists_exists.
  eexists. split; [ apply in_map; exact Hin | ].
  unfold near_full_scale. cbn [fst snd].
  destruct Hrow as [H | H]; apply Rabs_eq_cases in H;
    destruct (quantise_peak _ peak Hne H) as [-> | ->];
    eexists; (split; [ (left; reflexivity) || (right; reflexivity) | cbn; lia ]).
Qed.

(** A channel whose gain is zero is played as zeros. *)
Lemma sonify_left_silent (sv : State) (note : string) (f : R) :
  note_frequency note = Some f ->
  cos (sound_theta sv / 2) = 0 ->
  exists audio,
    sonify sv note = Some audio /\ Forall (fun fr => fst fr = Some 0%Z) audio.
Proof.
  intros Ef Hz. pose proof (note_frequency_range note f Ef) as Hf.
  destruct (sound_note_peak_pos (sound_theta sv) (sound_phi sv) f Hf)
    as [peak [Ep Hpos]].
  unfold sonify, normalise, scale. rewrite Ef, Ep. cbn [option_map].
  eexists. split; [ reflexivity | ].
  unfold quantise. rewrite map_map, sound_note_eq, map_map.
  apply Forall_forall. intros fr Hin. apply in_map_iff in Hin.
  destruct Hin as [t [<- _]]. cbn [fst snd].
  rewrite Hz, Rmult_0_l. apply quantise_zero. lra.
Qed.

Lemma sonify_right_silent (sv : State) (note : string) (f : R) :
  note_frequency note = Some f ->
  sin (sound_theta sv / 2) = 0 ->
  exists audio,
    sonify sv note = Some audio /\ Forall (fun fr => snd fr = Some 0%Z) audio.
Proof.
  intros Ef Hz. pose proof (note_frequency_range note f Ef) as Hf.
  destruct (sound_note_peak_pos (sound_theta sv) (sound_phi sv) f Hf)
    as [peak [Ep Hpos]].
  unfold sonify, normalise, scale. rewrite Ef, Ep. cbn [option_map].
  eexists. split; [ reflexivity | ].
  unfold quantise. rewrite map_map, sound_note_eq, map_map.
  apply Forall_forall. intros fr Hin. apply in_map_iff in Hin.
  destruct Hin as [t [<- _]]. cbn [fst snd].
  rewrite Hz, Rmult_0_l. apply quantise_zero. lra.
Qed.

End ScaleFacts.

(** X14.  Whenever [sound] accepts the note, the played buffer is at full
    scale up to one quantisation step: some sample, left or right, has
    magnitude 32766 or 32767, and every sample lies within
    [[-32767, 32767]]. *)
Theorem played_buffer_reaches_full_scale (sv : State) (note : string) (f : R) :
  note_frequency note = Some f ->
  exists audio,
    sonify sv note = Some audio
    /\ Exists near_full_scale audio
    /\ Forall frame_in_range audio.
Proof.
  intros Ef. pose proof (note_frequency_range note f Ef) as Hf.
  destruct (sound_note_peak_pos (sound_theta sv) (sound_phi sv) f Hf)
    as [peak [Ep Hpos]].
  assert (Hne : peak <> 0) by lra.
  destruct (normalise_full_scale _ peak Ep Hne) as [audio [Ea Hfull]].
  destruct (normalise_in_range _ peak Ep Hne) as [audio' [Ea' Hrange]].
  exists audio. unfold sonify. rewrite Ef.
  assert (E : audio' = audio) by congruence. subst audio'.
  repeat split; assumption.
Qed.

Lemma played_buffer_reaches_full_scale_witness :
  exists audio,
    sonify initial_state "Bb" = Some audio
    /\ Exists near_full_scale audio
    /\ Forall frame_in_range audio.
Proof.
  apply (played_buffer_reaches_full_scale initial_state "Bb"
           (440 * Rpower 2 (1 / 12))).
  reflexivity.
Defined.

(** X16.  When the real part of the first amplitude is zero (the state
    [(0, 1)] after the key [1], for one), every left sample of the played
    buffer is 0: all the sound is on the right channel. *)
Theorem left_channel_silent (sv : State) (note : string) (f : R) :
  note_frequency note = Some f ->
  Re (fst sv) = 0 ->
  exists audio,
    sonify sv note = Some audio /\ Forall (fun fr => fst fr = Some 0%Z) audio.
Proof.
  intros Ef Hx. apply (sonify_left_silent sv note f Ef).
  rewrite half_theta, Hx.
  replace (0 / arccos_A (fst sv)) with 0 by (unfold Rdiv; ring).
  rewrite acos_0. apply cos_PI2.
Qed.

Lemma left_channel_silent_witness :
  exists audio,
    sonify (statevector [XGate]) "G" = Some audio
    /\ Forall (fun fr => fst fr = Some 0%Z) audio.
Proof.
  apply (left_channel_silent (statevector [XGate]) "G"
           (440 * Rpower 2 (-2 / 12))).
  - reflexivity.
  - cbn. ring.
Defined.

(** X17.  When the first amplitude is 1 or -1 (the state [(1, 0)] of the
    empty circuit, for one), every right sample of the played buffer is 0:
    all the sound is on the left channel. *)
Theorem right_channel_silent (sv : State) (note : string) (f : R) :
  note_frequency note = Some f ->
  fst sv = C1 \/ fst sv = Copp C1 ->
  exists audio,
    sonify sv note = Some audio /\ Forall (fun fr => snd fr = Some 0%Z) audio.
Proof.
  intros Ef Ha. apply (sonify_right_silent sv note f Ef).
  rewrite half_theta.
  destruct Ha as [-> | ->].
  - rewrite arccos_A_real; cbn [C1 Re Im fst snd]; try lra.
    replace (1 / 1) with 1 by field. rewrite acos_1. apply sin_0.
  - rewrite arccos_A_opp, arccos_A_real; cbn [C1 Re Im fst snd]; try lra.
    unfold Rdiv. rewrite Rinv_1, Rmult_1_r.
    change (Re (Copp C1)) with (Ropp 1).
    rewrite acos_opp, acos_1, Rminus_0_r. apply sin_PI.
Qed.

Lemma right_channel_silent_witness :
  exists audio,
    sonify (statevector []) "C" = Some audio
    /\ Forall (fun fr => snd fr = Some 0%Z) audio.
Proof.
  apply (right_channel_silent (statevector []) "C"
           (440 * Rpower 2 (-9 / 12))).
  - reflexivity.
  - left. reflexivity.
Defined.
